(** * TextGrid to ASS karaoke converter: a shallow embedding of [main.py]

    The development follows the source file function by function:
    [format_time], [group_into_phrases], [create_karaoke_line],
    [create_ass_file], [main] and the dictionary construction of
    [parse_textgrid].

    Modelling conventions.
    - A Python [float] is a binary64 number: Rocq's primitive [float], with
      its rounded [+], [-], [*], [/] and its comparisons.  [int()], [%] and
      the conversion of an [int] to a [float] are written out on the
      mantissa and exponent of the number.
    - A Python [int] is a [Z].
    - A Python [str] is a [string], read as a sequence of code points below
      256; [py_isspace] is Python's [str.isspace] on that range.
    - A Python variable that may hold [None] is an [option].
    - An operation that raises is a computation in the [result] monad. *)

From Stdlib Require Import ZArith QArith Qround Qpower Lia.
From Stdlib Require Import Bool List String Ascii DecimalString.
From Stdlib Require Import Floats.
From Stdlib Require DecimalPos DecimalZ.
Import ListNotations.

Set Warnings "-inexact-float".

Open Scope string_scope.
Open Scope float_scope.

(* ------------------------------------------------------------------ *)
(** ** Exceptions *)

Inductive exn : Type :=
| TypeError
| ValueError
| OverflowError
| ZeroDivisionError.

Inductive result (A : Type) : Type :=
| Ok (a : A)
| Raise (e : exn).

Arguments Ok {A} a.
Arguments Raise {A} e.

Definition bind {A B : Type} (m : result A) (k : A -> result B) : result B :=
  match m with
  | Ok a => k a
  | Raise e => Raise e
  end.

Notation "x <- m ;; k" := (bind m (fun x => k))
  (at level 61, m at next level, right associativity).

(** Reading a variable as a number: [None] in an arithmetic operation raises
    [TypeError]. *)
Definition as_float (v : option float) : result float :=
  match v with
  | Some x => Ok x
  | None => Raise TypeError
  end.

(* ------------------------------------------------------------------ *)
(** ** Python strings *)

Module PyStr.

(** [str.isspace] for one code point below 256: TAB..CR, FS..US, SPACE,
    NEL (0x85) and NBSP (0xA0). *)
Definition py_isspace (c : ascii) : bool :=
  let n := nat_of_ascii c in
  ((9 <=? n) && (n <=? 13) || (28 <=? n) && (n <=? 32)
   || (n =? 133) || (n =? 160))%nat.

Definition is_empty (s : string) : bool :=
  match s with
  | EmptyString => true
  | String _ _ => false
  end.

Fixpoint lstrip (s : string) : string :=
  match s with
  | EmptyString => EmptyString
  | String c r => if py_isspace c then lstrip r else s
  end.

Fixpoint rstrip (s : string) : string :=
  match s with
  | EmptyString => EmptyString
  | String c r =>
      let r' := rstrip r in
      if py_isspace c && is_empty r' then EmptyString else String c r'
  end.

(** [s.strip()] *)
Definition strip (s : string) : string := rstrip (lstrip s).

(** [sub in s] *)
Fixpoint contains (sub s : string) : bool :=
  prefix sub s ||
  match s with
  | EmptyString => false
  | String _ r => contains sub r
  end.

(** [s.replace(old, new)] for a non-empty [old]: scan left to right; at an
    occurrence of [old] emit [new] and skip the occurrence.  [skip] counts
    the characters of the current occurrence still to be dropped. *)
Fixpoint replace_scan (old new : string) (skip : nat) (s : string) : string :=
  match s with
  | EmptyString => EmptyString
  | String c r =>
      match skip with
      | S k => replace_scan old new k r
      | O =>
          if prefix old s
          then new ++ replace_scan old new (pred (length old)) r
          else String c (replace_scan old new O r)
      end
  end.

(** [s.replace("", new)]: [new] before every character and at the end. *)
Fixpoint interleave (new s : string) : string :=
  match s with
  | EmptyString => new
  | String c r => new ++ String c (interleave new r)
  end.

Definition replace (old new s : string) : string :=
  if is_empty old then interleave new s else replace_scan old new O s.

(** ["sep".join(items)] *)
Fixpoint join (sep : string) (items : list string) : string :=
  match items with
  | [] => EmptyString
  | [x] => x
  | x :: rest => x ++ sep ++ join sep rest
  end.

Definition nl : string := String (ascii_of_nat 10) EmptyString.
Definition dquote : string := String (ascii_of_nat 34) EmptyString.

End PyStr.
Import PyStr.

(* ------------------------------------------------------------------ *)
(** ** Python numbers *)

Module PyNum.

(** [int(x)] on a float: truncation toward zero of the exact value
    [+-m * 2^e]; [ValueError] on a NaN, [OverflowError] on an infinity. *)
Definition py_int (x : float) : result Z :=
  match Prim2SF x with
  | S754_nan => Raise ValueError
  | S754_infinity _ => Raise OverflowError
  | S754_zero _ => Ok 0%Z
  | S754_finite s m e =>
      let a := if (0 <=? e)%Z then Z.shiftl (Zpos m) e
               else Z.shiftr (Zpos m) (- e) in
      Ok (if s then (- a)%Z else a)
  end.

(** A non-negative [int] as the nearest float (ties to even).  Below [2^63]
    the primitive conversion rounds; above, the top 63 bits are converted
    with the discarded bits kept as a sticky bit, then scaled. *)
Definition float_of_magnitude (a : Z) : float :=
  if (a <? 2 ^ 63)%Z then of_uint63 (Uint63Axioms.of_Z a)
  else
    let k := (Z.log2 a - 62)%Z in
    let q := Z.shiftr a k in
    let q := if (Z.shiftl q k =? a)%Z then q else Z.lor q 1 in
    Z.ldexp (of_uint63 (Uint63Axioms.of_Z q)) k.

(** The conversion of an [int] operand of a float operation;
    [OverflowError] when the integer is too large. *)
Definition float_of_int (n : Z) : result float :=
  let f := float_of_magnitude (Z.abs n) in
  if is_infinity f then Raise OverflowError
  else Ok (if (n <? 0)%Z then - f else f).

(** [x / y] on floats. *)
Definition py_div (x y : float) : result float :=
  if is_zero y then Raise ZeroDivisionError else Ok (x / y).

(** C's [fmod]: the exact remainder of [x] by [y], with the sign of [x]. *)
Definition fmod (x y : float) : float :=
  match Prim2SF x, Prim2SF y with
  | S754_nan, _ => nan
  | _, S754_nan => nan
  | S754_infinity _, _ => nan
  | _, S754_zero _ => nan
  | _, S754_infinity _ => x
  | S754_zero _, _ => x
  | S754_finite sx mx ex, S754_finite _ my ey =>
      let e := Z.min ex ey in
      let X := Z.shiftl (Zpos mx) (ex - e) in
      let Y := Z.shiftl (Zpos my) (ey - e) in
      let R := Z.rem X Y in
      if (R =? 0)%Z then (if sx then neg_zero else zero)
      else
        let r := Z.ldexp (of_uint63 (Uint63Axioms.of_Z R)) e in
        if sx then - r else r
  end.

(** [x % y] on floats ([float_rem]): [fmod], moved to the sign of the
    divisor by one rounded addition; a zero remainder takes the divisor's
    sign. *)
Definition py_mod (x y : float) : result float :=
  if is_zero y then Raise ZeroDivisionError
  else
    let m := fmod x y in
    if is_zero m then Ok (if get_sign y then neg_zero else zero)
    else if xorb (y <? 0) (m <? 0) then Ok (m + y)
    else Ok m.

(** [a > b] and [a >= b] *)
Definition gtb (a b : float) : bool := (b <? a).
Definition geb (a b : float) : bool := (b <=? a).

(** [max(0, x)]: the first argument is kept unless the second is greater.
    The [int] 0 it then returns is formatted by [format_time] like the
    float 0.0, which stands for it here. *)
Definition py_max0 (x : float) : float := if gtb x 0 then x else 0.

(** [str(n)] / [f"{n}"] for an int. *)
Definition str_of_int (n : Z) : string := NilZero.string_of_int (Z.to_int n).

Fixpoint zeros (k : nat) : string :=
  match k with
  | O => EmptyString
  | S k' => String "0" (zeros k')
  end.

(** [f"{n:02d}"]: sign-aware zero padding to a minimum width of 2. *)
Definition fmt_02d (n : Z) : string :=
  let sign := if (n <? 0)%Z then "-" else "" in
  let digits := str_of_int (Z.abs n) in
  sign ++ zeros (2 - length sign - length digits) ++ digits.

End PyNum.
Import PyNum.

(* ------------------------------------------------------------------ *)
(** ** [format_time] *)

Definition format_time (seconds : float) : result string :=
  q <- py_div seconds 3600 ;;
  hours <- py_int q ;;
  r <- py_mod seconds 3600 ;;
  q' <- py_div r 60 ;;
  minutes <- py_int q' ;;
  seconds <- py_mod seconds 60 ;;
  whole <- py_int seconds ;;
  whole_f <- float_of_int whole ;;
  centiseconds <- py_int ((seconds - whole_f) * 100) ;;
  Ok (str_of_int hours ++ ":" ++ fmt_02d minutes ++ ":"
        ++ fmt_02d whole ++ "." ++ fmt_02d centiseconds).

(* ------------------------------------------------------------------ *)
(** ** [group_into_phrases] *)

(** [(start, end, text)] *)
Definition interval : Type := float * float * string.

(** [(start, end, text, has_marker)] *)
Definition word : Type := float * float * string * bool.

(** [(current_start, current_end, current_words)]; [current_end] is the
    variable initialised to [None]. *)
Definition phrase : Type := float * option float * list word.

Definition word_start (w : word) : float := let '(s, _, _, _) := w in s.
Definition word_end (w : word) : float := let '(_, e, _, _) := w in e.
Definition word_text (w : word) : string := let '(_, _, t, _) := w in t.
Definition word_has_marker (w : word) : bool := let '(_, _, _, m) := w in m.

Definition phrase_start (p : phrase) : float := let '(s, _, _) := p in s.
Definition phrase_end (p : phrase) : option float := let '(_, e, _) := p in e.
Definition phrase_words (p : phrase) : list word := let '(_, _, ws) := p in ws.

(** Truthiness of a list. *)
Definition truthy {A : Type} (l : list A) : bool :=
  match l with
  | [] => false
  | _ :: _ => true
  end.

(** The guard of the first loop: [not text.strip() or text == "<p:>"]. *)
Definition skip_interval (text : string) : bool :=
  is_empty (strip text) || String.eqb text "<p:>".

(** First loop: builds [filtered_intervals]. *)
Fixpoint filter_loop (phrase_marker : string) (intervals : list interval)
    (filtered_intervals : list word) : list word :=
  match intervals with
  | [] => filtered_intervals
  | (start, end_, text) :: rest =>
      if skip_interval text
      then filter_loop phrase_marker rest filtered_intervals
      else
        let has_marker := contains phrase_marker text in
        filter_loop phrase_marker rest
          (filtered_intervals ++ [(start, end_, text, has_marker)])%list
  end.

(** [text.replace(phrase_marker, " ").strip()] *)
Definition clean_text (phrase_marker text : string) : string :=
  strip (replace phrase_marker " " text).

(** The tuple stored for a filtered word. *)
Definition stored_word (phrase_marker : string) (w : word) : word :=
  let '(start, end_, text, has_marker) := w in
  (start, end_, clean_text phrase_marker text, has_marker).

(** [last_word = current_words[-1];
     current_words[-1] = (last_word[0], last_word[1], last_word[2], last_word[3])] *)
Definition reassign_last (ws : list word) : list word :=
  match rev ws with
  | [] => ws
  | (a, b, c, d) :: _ => (removelast ws ++ [(a, b, c, d)])%list
  end.

(** The local variables of the second loop. *)
Record seg_state : Type := mk_seg_state {
  phrases : list phrase;
  current_words : list word;
  current_start : option float;
  current_end : option float;
  last_phrase_end : option float
}.

Definition seg_init : seg_state :=
  {| phrases := []; current_words := []; current_start := None;
     current_end := None; last_phrase_end := Some 0 |}.

Section Segmenter.

Variable phrase_marker : string.
Variable min_phrase_gap : float.
Variable target_duration : float.

(** [has_marker and start - last_phrase_end >= min_phrase_gap and current_words] *)
Definition phrase_marker_condition (st : seg_state) (w : word) : result bool :=
  if word_has_marker w then
    lpe <- as_float (last_phrase_end st) ;;
    Ok (geb (word_start w - lpe) min_phrase_gap && truthy (current_words st))
  else Ok false.

(** [end - current_start > target_duration and current_words], after
    [current_start] has been initialised. *)
Definition duration_condition (cur_start : float) (st : seg_state) (w : word) : bool :=
  gtb (word_end w - cur_start) target_duration && truthy (current_words st).

(** One iteration of the second loop. *)
Definition seg_step (st : seg_state) (w : word) : result seg_state :=
  let '(start, end_, text, has_marker) := w in
  let cur_start :=
    match current_start st with
    | None => start
    | Some c => c
    end in
  marker_cond <- phrase_marker_condition st w ;;
  let duration_cond := duration_condition cur_start st w in
  if marker_cond || duration_cond then
    let '(phrases', last_phrase_end') :=
      if truthy (current_words st) then
        let cw := if has_marker then reassign_last (current_words st)
                  else current_words st in
        ((phrases st ++ [(cur_start, current_end st, cw)])%list, current_end st)
      else (phrases st, last_phrase_end st) in
    Ok {| phrases := phrases';
          current_words := [(start, end_, clean_text phrase_marker text, has_marker)];
          current_start := Some start;
          current_end := Some end_;
          last_phrase_end := last_phrase_end' |}
  else
    Ok {| phrases := phrases st;
          current_words :=
            (current_words st
               ++ [(start, end_, clean_text phrase_marker text, has_marker)])%list;
          current_start := Some cur_start;
          current_end := Some end_;
          last_phrase_end := last_phrase_end st |}.

Fixpoint seg_loop (st : seg_state) (filtered_intervals : list word)
  : result seg_state :=
  match filtered_intervals with
  | [] => Ok st
  | w :: rest => st' <- seg_step st w ;; seg_loop st' rest
  end.

(** [if current_words and current_start is not None: phrases.append(...)] *)
Definition seg_finish (st : seg_state) : list phrase :=
  match truthy (current_words st), current_start st with
  | true, Some c => (phrases st ++ [(c, current_end st, current_words st)])%list
  | _, _ => phrases st
  end.

Definition segment_filtered (filtered_intervals : list word)
  : result (list phrase) :=
  st <- seg_loop seg_init filtered_intervals ;;
  Ok (seg_finish st).

End Segmenter.

Definition group_into_phrases (intervals : list interval)
    (phrase_marker : string) (min_phrase_gap target_duration : float)
  : result (list phrase) :=
  let filtered_intervals := filter_loop phrase_marker intervals [] in
  segment_filtered phrase_marker min_phrase_gap target_duration
    filtered_intervals.

(* ------------------------------------------------------------------ *)
(** ** [create_karaoke_line] *)

(** The loop over [enumerate(words)]: [i] is the index, [result] the string
    built so far.  [int()] raises when the product is not finite. *)
Fixpoint karaoke_loop (i : nat) (result : string) (words : list word)
    {struct words} :=
  match words with
  | [] => Ok result
  | (start, end_, text, has_marker) :: rest =>
      duration_cs <- py_int ((end_ - start) * 100) ;;
      let result := if (0 <? i)%nat && has_marker then result ++ " " else result in
      let result := result ++ "{\K" ++ str_of_int duration_cs ++ "}" ++ text ++ " " in
      karaoke_loop (S i) result rest
  end.

Definition create_karaoke_line (words : list word) : result string :=
  karaoke_loop 0 "" words.

(* ------------------------------------------------------------------ *)
(** ** [create_ass_file] *)

(** The header f-string, line by line; every line ends with a newline. *)
Definition header_lines (style_name : string) : list string :=
  [ "[Script Info]";
    "; Script generated by TextGrid to ASS Converter for Karaoke";
    "Title: Karaoke from TextGrid";
    "ScriptType: v4.00+";
    "WrapStyle: 0";
    "ScaledBorderAndShadow: yes";
    "YCbCr Matrix: None";
    "PlayResX: 1920";
    "PlayResY: 1080";
    "";
    "[V4+ Styles]";
    "Format: Name, Fontname, Fontsize, PrimaryColour, SecondaryColour, OutlineColour, BackColour, Bold, Italic, Underline, StrikeOut, ScaleX, ScaleY, Spacing, Angle, BorderStyle, Outline, Shadow, Alignment, MarginL, MarginR, MarginV, Encoding";
    "Style: " ++ style_name ++ ",Arial,48,&H00FFFFFF,&H000000FF,&H00000000,&H80000000,1,0,0,0,100,100,0,0,1,2,2,2,10,10,40,1";
    "Style: Voice1,Microsoft PhagsPa,80,&H00D58847,&H00FFFFFF,&H00000000,&H00000000,0,0,0,0,100,100,0,0,1,2,2,1,100,10,100,1";
    "Style: Voice2,Microsoft PhagsPa,80,&H0092D8F9,&H00FFFFFF,&H00000000,&H00000000,0,0,0,0,100,100,0,0,1,2,2,3,10,100,10,1";
    "Style: Line1,Microsoft PhagsPa,100,&H00FFDB00,&H00FFFFFF,&H00000000,&H00000000,0,0,0,0,100,100,0,0,1,2,2,1,100,10,170,1";
    "Style: Line2,Microsoft PhagsPa,100,&H00FFDB00,&H00FFFFFF,&H00000000,&H00000000,0,0,0,0,100,100,0,0,1,2,2,3,0,100,50,1";
    "";
    "[Events]";
    "Format: Layer, Start, End, Style, Name, MarginL, MarginR, MarginV, Effect, Text" ].

Definition header (style_name : string) : string :=
  String.concat "" (map (fun l => l ++ nl) (header_lines style_name)).

(** The body of the loop over [phrases]: one [Dialogue] line.  [shift_time]
    is [None] when the caller passes [None]; [start + shift_time] then
    raises. *)
Definition dialogue_event (style_name : string) (shift_time : option float)
    (p : phrase) : result string :=
  let '(start, end_, words) := p in
  shift <- as_float shift_time ;;
  let shifted_start := py_max0 (start + shift) in
  start_time <- format_time shifted_start ;;
  end_val <- as_float end_ ;;
  end_time <- format_time end_val ;;
  karaoke_text <- create_karaoke_line words ;;
  lead_in <- py_int (shift * -100) ;;
  let karaoke_text := "{\K" ++ str_of_int lead_in ++ "}" ++ karaoke_text in
  Ok ("Dialogue: 0," ++ start_time ++ "," ++ end_time ++ "," ++ style_name
        ++ ",,0,0,0,," ++ karaoke_text).

Fixpoint events_loop (style_name : string) (shift_time : option float)
    (phrases : list phrase) (events : list string) : result (list string) :=
  match phrases with
  | [] => Ok events
  | p :: rest =>
      ev <- dialogue_event style_name shift_time p ;;
      events_loop style_name shift_time rest (events ++ [ev])%list
  end.

(** [create_ass_file]: the value is the text written to [output_file]; when
    the loop raises, the file is never opened. *)
Definition create_ass_file (intervals : list interval) (style_name : string)
    (phrase_marker : string) (min_phrase_gap target_duration : float)
    (shift_time : option float) : result string :=
  phrases <- group_into_phrases intervals phrase_marker min_phrase_gap
               target_duration ;;
  events <- events_loop style_name shift_time phrases [] ;;
  Ok (header style_name ++ join nl events).

(* ------------------------------------------------------------------ *)
(** ** [main] *)

(** The command line: the two positional arguments and the options that were
    given. *)
Record cli : Type := mk_cli {
  cli_input : string;
  cli_output : string;
  cli_tier : option string;
  cli_style : option string;
  cli_phrase_marker : option string;
  cli_min_phrase_gap : option float;
  cli_target_duration : option float;
  cli_shift_time : option float
}.

(** The namespace returned by [parser.parse_args()]. *)
Record args : Type := mk_args {
  input : string;
  output : string;
  tier : string;
  style : string;
  arg_phrase_marker : string;
  arg_min_phrase_gap : float;
  arg_target_duration : float;
  shift_time : option float
}.

Definition with_default {A : Type} (default : A) (given : option A) : A :=
  match given with
  | Some v => v
  | None => default
  end.

(** [--shift-time] is declared without [default=], so the attribute is
    [None] when the option is absent. *)
Definition parse_args (c : cli) : args :=
  {| input := cli_input c;
     output := cli_output c;
     tier := with_default "words" (cli_tier c);
     style := with_default "Default" (cli_style c);
     arg_phrase_marker := with_default "<eps>" (cli_phrase_marker c);
     arg_min_phrase_gap := with_default 2.0 (cli_min_phrase_gap c);
     arg_target_duration := with_default 5.0 (cli_target_duration c);
     shift_time := cli_shift_time c |}.

(** The dictionary returned by [parse_textgrid], in insertion order. *)
Definition tiers_dict : Type := list (string * list interval).

Fixpoint lookup_tier (name : string) (tiers : tiers_dict) : option (list interval) :=
  match tiers with
  | [] => None
  | (k, v) :: rest => if String.eqb name k then Some v else lookup_tier name rest
  end.

Inductive outcome : Type :=
| TierNotFound (message : string)      (* printed; no file written *)
| Converted (file_content : string)    (* written to [args.output] *)
| Crashed (e : exn).                   (* uncaught exception; no file written *)

(** [main], after [parse_textgrid(args.input)] has returned [tiers]. *)
Definition main (c : cli) (tiers : tiers_dict) : outcome :=
  let a := parse_args c in
  match lookup_tier (tier a) tiers with
  | None =>
      let available_tiers :=
        join ", " (map (fun t => dquote ++ fst t ++ dquote) tiers) in
      TierNotFound ("Tier " ++ dquote ++ tier a ++ dquote
                      ++ " not found. Available tiers: " ++ available_tiers)
  | Some intervals =>
      match create_ass_file intervals (style a) (arg_phrase_marker a)
              (arg_min_phrase_gap a) (arg_target_duration a) (shift_time a) with
      | Ok content => Converted content
      | Raise e => Crashed e
      end
  end.

(* ------------------------------------------------------------------ *)
(** ** Vocabulary of the statements *)

Definition interval_start (iv : interval) : float := let '(s, _, _) := iv in s.
Definition interval_end (iv : interval) : float := let '(_, e, _) := iv in e.
Definition interval_text (iv : interval) : string := let '(_, _, t) := iv in t.

(** The tuple the first loop appends for a retained interval. *)
Definition annotate (phrase_marker : string) (iv : interval) : word :=
  let '(s, e, t) := iv in (s, e, t, contains phrase_marker t).

(** An interval the first loop retains. *)
Definition retained (iv : interval) : bool :=
  negb (skip_interval (interval_text iv)).

(** Discarding as the specification words it: the text, after trimming, is
    empty or equals the silence token. *)
Definition spec_discards (text : string) : bool :=
  is_empty (strip text) || String.eqb (strip text) "<p:>".

(** The words of a list of phrases, in output order. *)
Definition all_words (ps : list phrase) : list word :=
  List.concat (map phrase_words ps).

(** The end of the most recently completed phrase, 0 before the first. *)
Definition last_completed_end (ps : list phrase) : option float :=
  match rev ps with
  | [] => Some 0
  | p :: _ => phrase_end p
  end.

(** [current_start] once the head of the loop body has initialised it. *)
Definition start_of (st : seg_state) (w : word) : float :=
  match current_start st with
  | None => word_start w
  | Some c => c
  end.

(** The two triggers, with [last_phrase_end] known to be the number [lpe]. *)
Definition marker_fires (min_phrase_gap lpe : float) (st : seg_state) (w : word) : bool :=
  word_has_marker w && geb (word_start w - lpe) min_phrase_gap
    && truthy (current_words st).

Definition duration_fires (target_duration : float) (st : seg_state) (w : word) : bool :=
  gtb (word_end w - start_of st w) target_duration && truthy (current_words st).

(** The state after closing the current phrase at [w]. *)
Definition close_state (phrase_marker : string) (st : seg_state) (w : word)
  : seg_state :=
  {| phrases :=
       (phrases st ++ [(start_of st w, current_end st, current_words st)])%list;
     current_words := [stored_word phrase_marker w];
     current_start := Some (word_start w);
     current_end := Some (word_end w);
     last_phrase_end := current_end st |}.

(** The state after appending [w] to the current phrase. *)
Definition append_state (phrase_marker : string) (st : seg_state) (w : word)
  : seg_state :=
  {| phrases := phrases st;
     current_words := (current_words st ++ [stored_word phrase_marker w])%list;
     current_start := Some (start_of st w);
     current_end := Some (word_end w);
     last_phrase_end := last_phrase_end st |}.

(** A well-formed phrase: it starts where its first word starts, ends where
    its last word ends and, unless it is one word, the difference
    [end - start] the code computes is not greater than [target]. *)
Definition phrase_ok (target : float) (p : phrase) : Prop :=
  match p with
  | (s, Some e, w0 :: rest) =>
      s = word_start w0 /\ e = word_end (last rest w0)
      /\ (rest <> [] -> gtb (e - s) target = false)
  | _ => False
  end.

(** The loop invariant of the second loop after the words [processed]. *)
Record seg_inv (phrase_marker : string) (target : float)
    (processed : list word) (st : seg_state) : Prop := mk_seg_inv {
  inv_phrases : Forall (phrase_ok target) (phrases st);
  inv_current :
    match current_words st with
    | [] => current_start st = None
    | _ :: _ =>
        exists cs, current_start st = Some cs
                   /\ phrase_ok target (cs, current_end st, current_words st)
    end;
  inv_last_end : last_phrase_end st = last_completed_end (phrases st);
  inv_words :
    (all_words (phrases st) ++ current_words st)%list
    = map (stored_word phrase_marker) processed
}.

(** The input is sorted by start time. *)
Fixpoint sorted_by_start (ivs : list interval) : bool :=
  match ivs with
  | [] => true
  | a :: rest =>
      match rest with
      | [] => true
      | b :: _ => (interval_start a <=? interval_start b)
                  && sorted_by_start rest
      end
  end.

(** The exact value of a finite float, as a rational. *)
Definition exact_value (x : float) : option Q :=
  match Prim2SF x with
  | S754_zero _ => Some 0%Q
  | S754_finite s m e =>
      let v := (inject_Z (Zpos m) * Qpower 2 e)%Q in
      Some (if s then (- v)%Q else v)
  | _ => None
  end.

(** Truncation toward zero of a rational. *)
Definition exact_trunc (q : Q) : Z :=
  if Qle_bool 0 q then Qfloor q else Qceiling q.

(** The exact difference [a - b] of two finite floats. *)
Definition exact_diff (a b : float) : option Q :=
  match exact_value a, exact_value b with
  | Some x, Some y => Some (x - y)%Q
  | _, _ => None
  end.

(** The duration bound as the specification states it, on exact values: a
    phrase [p] that was closed by the arrival of [w], the first word of the
    phrase after it, spans at most [target] plus the duration of [w]. *)
Definition spec_duration_bound (target : float) (ps : list phrase) : Prop :=
  forall pre p q post e w rest t span d,
    ps = (pre ++ p :: q :: post)%list ->
    phrase_end p = Some e ->
    phrase_words q = w :: rest ->
    exact_value target = Some t ->
    exact_diff e (phrase_start p) = Some span ->
    exact_diff (word_end w) (word_start w) = Some d ->
    (span <= t + d)%Q.


(** [math.floor(x)] on a float. *)
Definition py_floor (x : float) : result Z :=
  match Prim2SF x with
  | S754_nan => Raise ValueError
  | S754_infinity _ => Raise OverflowError
  | S754_zero _ => Ok 0%Z
  | S754_finite s m e =>
      if (0 <=? e)%Z then
        let a := Z.shiftl (Zpos m) e in Ok (if s then (- a)%Z else a)
      else
        let a := Z.shiftr (Zpos m) (- e) in
        let whole := (Z.shiftl a (- e) =? Zpos m)%Z in
        Ok (if s then (if whole then (- a)%Z else (- a - 1)%Z) else a)
  end.

(** The floor of [(end - start) * 100] computed on exact values. *)
Definition exact_floor_cs (start end_ : float) : option Z :=
  match exact_diff end_ start with
  | Some d => Some (Qfloor (d * 100))
  | None => None
  end.

(** The text one word contributes to the line; [dur] turns the product
    [(end - start) * 100] into the integer of the tag, and [i] is the word's
    index in the phrase. *)
Definition word_markup (dur : float -> result Z) (i : nat) (w : word)
  : result string :=
  let '(s, e, t, m) := w in
  n <- dur ((e - s) * 100) ;;
  Ok ((if (0 <? i)%nat && m then " " else "")
        ++ "{\K" ++ str_of_int n ++ "}" ++ t ++ " ").

Fixpoint markup_from (dur : float -> result Z) (i : nat) (ws : list word)
  : result string :=
  match ws with
  | [] => Ok ""
  | w :: rest =>
      a <- word_markup dur i w ;;
      b <- markup_from dur (S i) rest ;;
      Ok (a ++ b)
  end.

(** The encoder as the specification words it: the tag carries the floor of
    the product. *)
Definition spec_encode (ws : list word) : result string :=
  markup_from py_floor 0 ws.





(** A command line with the two positional arguments only. *)
Definition bare_cli (inp out : string) : cli :=
  {| cli_input := inp; cli_output := out; cli_tier := None;
     cli_style := None; cli_phrase_marker := None;
     cli_min_phrase_gap := None; cli_target_duration := None;
     cli_shift_time := None |}.

Definition with_shift_time (c : cli) (shift : float) : cli :=
  {| cli_input := cli_input c; cli_output := cli_output c;
     cli_tier := cli_tier c; cli_style := cli_style c;
     cli_phrase_marker := cli_phrase_marker c;
     cli_min_phrase_gap := cli_min_phrase_gap c;
     cli_target_duration := cli_target_duration c;
     cli_shift_time := Some shift |}.

(* ------------------------------------------------------------------ *)
(** ** [parse_textgrid], after the regular-expression searches

    The three [re.findall] searches and the [float()] conversions are taken
    as given: [tier_names] is the list returned by the first search and
    [blocks] holds, for each item block in order, the triples matched by the
    interval pattern with [start] and [end] already converted.  What is
    modelled is the construction of the dictionary. *)

(** [tiers[k] = v] on a dictionary kept in insertion order. *)
Fixpoint dict_set (k : string) (v : list interval) (d : tiers_dict) : tiers_dict :=
  match d with
  | [] => [(k, v)]
  | (k', v') :: rest =>
      if String.eqb k k' then (k', v) :: rest else (k', v') :: dict_set k v rest
  end.

(** [{name: [] for name in tier_names}] *)
Definition empty_tiers (tier_names : list string) : tiers_dict :=
  fold_left (fun d name => dict_set name [] d) tier_names [].

(** [[(float(start), float(end), text.strip()) for start, end, text in intervals]] *)
Definition strip_intervals (intervals : list interval) : list interval :=
  map (fun iv : interval => let '(s, e, t) := iv in (s, e, strip t)) intervals.

(** The loop over [enumerate(item_blocks)]; it stops at the first block
    without a tier name. *)
Fixpoint fill_tiers (tier_names : list string) (blocks : list (list interval))
    (tiers : tiers_dict) : tiers_dict :=
  match blocks, tier_names with
  | block :: blocks', name :: names' =>
      fill_tiers names' blocks' (dict_set name (strip_intervals block) tiers)
  | _, _ => tiers
  end.

Definition collect_tiers (tier_names : list string)
    (blocks : list (list interval)) : tiers_dict :=
  fill_tiers tier_names blocks (empty_tiers tier_names).

(* ------------------------------------------------------------------ *)
(** ** Further vocabulary *)

(** The word [w] fires neither trigger, as the code computes them, in a
    phrase that started at [s], the phrase before having ended at [lpe]. *)
Definition stays (gap target lpe s : float) (w : word) : Prop :=
  (word_has_marker w = true -> geb (word_start w - lpe) gap = false)
  /\ gtb (word_end w - s) target = false.

(** The word [w] fires a trigger, as the code computes them, against a
    phrase that started at [s], the phrase before having ended at [lpe]. *)
Definition fires (gap target lpe s : float) (w : word) : Prop :=
  (word_has_marker w = true /\ geb (word_start w - lpe) gap = true)
  \/ gtb (word_end w - s) target = true.

(** The first word after a completed phrase: the head of the next completed
    phrase or, after the last one, of the words being accumulated. *)
Definition next_first (post : list phrase) (cur : list word) : option word :=
  match post with
  | [] => hd_error cur
  | q :: _ => hd_error (phrase_words q)
  end.

(** Every completed phrase was kept open by each of its later words and
    closed by a word that fired; the open phrase was kept open so far. *)
Record seg_greedy (gap target : float) (st : seg_state) : Prop := mk_seg_greedy {
  greedy_done :
    forall pre p post lpe,
      phrases st = (pre ++ p :: post)%list ->
      last_completed_end pre = Some lpe ->
      (forall w, In w (tl (phrase_words p)) ->
                 stays gap target lpe (phrase_start p) w)
      /\ (forall w, next_first post (current_words st) = Some w ->
                    fires gap target lpe (phrase_start p) w);
  greedy_open :
    forall lpe cs w,
      last_phrase_end st = Some lpe ->
      current_start st = Some cs ->
      In w (tl (current_words st)) ->
      stays gap target lpe cs w;
  greedy_fresh : current_words st = [] -> phrases st = []
}.

(** Time order without overlap: the first ends no later than the second
    starts. *)
Definition ends_before (a b : interval) : Prop :=
  (interval_end a <=? interval_start b) = true.

Definition word_before (a b : word) : Prop :=
  (word_end a <=? word_start b) = true.

Definition phrase_before (p q : phrase) : Prop :=
  exists e, phrase_end p = Some e /\ (e <=? phrase_start q) = true.

(** Not a negative number: a zero of either sign, a positive finite number,
    the positive infinity, or a NaN. *)
Definition sf_not_negative (x : spec_float) : Prop :=
  match x with
  | S754_zero _ => True
  | S754_infinity s => s = false
  | S754_finite s _ _ => s = false
  | S754_nan => True
  end.

(** An exception [int()] raises on a float. *)
Definition int_error (e : exn) : Prop := e = ValueError \/ e = OverflowError.

(* ------------------------------------------------------------------ *)
(** * Properties *)

(** ** Sample runs *)

Example format_time_sample : format_time 3725.678 = Ok "1:02:05.67".
Proof. vm_compute. reflexivity. Qed.

Example format_time_zero : format_time 0 = Ok "0:00:00.00".
Proof. vm_compute. reflexivity. Qed.

Example format_time_rounded_product :
  format_time 0.29 = Ok "0:00:00.28" /\ format_time 0.35 = Ok "0:00:00.35".
Proof. split; vm_compute; reflexivity. Qed.

Example format_time_tiny_negative : format_time (-1e-20) = Ok "0:60:60.00".
Proof. vm_compute. reflexivity. Qed.

Example format_time_not_finite :
  format_time infinity = Raise OverflowError
  /\ format_time nan = Raise ValueError.
Proof. split; vm_compute; reflexivity. Qed.

Example py_mod_samples :
  py_mod 3725.678 60 = Ok 5.677999999999884
  /\ py_mod (-7.5) 2 = Ok 0.5
  /\ py_mod 7.5 (-2) = Ok (-0.5)
  /\ py_mod (-1e-20) 60 = Ok 60.
Proof. repeat split; vm_compute; reflexivity. Qed.

Example strip_sample : strip "  a b  " = "a b".
Proof. reflexivity. Qed.

Example replace_sample : replace "<eps>" " " "<eps>world<eps>" = " world ".
Proof. reflexivity. Qed.

Example replace_empty_sample : replace "" "-" "ab" = "-a-b-".
Proof. reflexivity. Qed.

Example replace_overlap_sample : replace "aa" "b" "aaa" = "ba".
Proof. reflexivity. Qed.

Example segment_sample_spec_scenario :
  group_into_phrases [(0, 1, "hello"); (1, 2, "<eps>world")] "<eps>" 2 5
  = Ok [(0, Some 2, [(0, 1, "hello", false); (1, 2, "world", true)])].
Proof. vm_compute. reflexivity. Qed.

Example karaoke_sample_spec_scenario :
  create_karaoke_line [(0, 1, "hello", false); (1, 2, "world", true)]
  = Ok "{\K100}hello  {\K100}world ".
Proof. vm_compute. reflexivity. Qed.

Example karaoke_sample_rounded_products :
  create_karaoke_line [(0, 0.29, "x", false); (0, 0.35, "y", false)]
  = Ok "{\K28}x {\K35}y ".
Proof. vm_compute. reflexivity. Qed.

Example segment_sample_duration_split :
  group_into_phrases
    [(0, 2, "a"); (2, 4, "b"); (4, 6, "c")] "<eps>" 2 5
  = Ok [(0, Some 4, [(0, 2, "a", false); (2, 4, "b", false)]);
        (4, Some 6, [(4, 6, "c", false)])].
Proof. vm_compute. reflexivity. Qed.

(** The rounded difference decides: 8.05 - 3.05 is above 5 in binary64. *)
Example segment_sample_rounded_difference :
  group_into_phrases [(3.05, 4, "a"); (4, 8.05, "b")] "<eps>" 2 5
  = Ok [(3.05, Some 4, [(3.05, 4, "a", false)]);
        (4, Some 8.05, [(4, 8.05, "b", false)])]
  /\ group_into_phrases [(0.03, 1, "a"); (1, 5.03, "b")] "<eps>" 2 5
     = Ok [(0.03, Some 5.03, [(0.03, 1, "a", false); (1, 5.03, "b", false)])].
Proof. split; vm_compute; reflexivity. Qed.


(** ** Strings *)

Section StringFacts.

Lemma append_nil_r (s : string) : s ++ "" = s.
Proof. induction s as [|c s IH]; simpl; [reflexivity | now rewrite IH]. Qed.

Lemma append_assoc (a b c : string) : (a ++ b) ++ c = a ++ (b ++ c).
Proof. induction a as [|x a IH]; simpl; [reflexivity | now rewrite IH]. Qed.

(** [prefix] decides "starts with". *)
Lemma prefix_iff (a s : string) :
  prefix a s = true <-> exists r, s = a ++ r.
Proof.
  revert s; induction a as [|x a IH]; intros s.
  - split; [intros _; now exists s | intros _; now destruct s].
  - destruct s as [|y s]; simpl.
    + split; [discriminate | intros [r Hr]; discriminate].
    + destruct (ascii_dec x y) as [->|Hxy].
      * rewrite IH. split; intros [r Hr]; exists r.
        -- now rewrite Hr.
        -- now inversion Hr.
      * split; [discriminate | intros [r Hr]; inversion Hr; congruence].
Qed.


(** [contains] decides "is a substring of". *)
Lemma contains_iff (a s : string) :
  contains a s = true <-> exists l r, s = l ++ a ++ r.
Proof.
  induction s as [|y s IH]; cbn [contains].
  - rewrite orb_false_r, prefix_iff. split.
    + intros [r Hr]. now exists "", r.
    + intros [l [r Hr]]. destruct l; simpl in Hr; [now exists r | discriminate].
  - rewrite orb_true_iff, IH, prefix_iff. split.
    + intros [[r Hr] | [l [r Hr]]].
      * now exists "", r.
      * exists (String y l), r. simpl. now rewrite Hr.
    + intros [l [r Hr]]. destruct l as [|z l]; simpl in Hr.
      * left. now exists r.
      * right. inversion Hr. now exists l, r.
Qed.


Lemma is_empty_iff (s : string) : is_empty s = true <-> s = "".
Proof. destruct s; simpl; split; congruence. Qed.




Lemma strip_empty_of_empty (s : string) : s = "" -> strip s = "".
Proof. now intros ->. Qed.

End StringFacts.



(* ------------------------------------------------------------------ *)
(** ** The first loop *)

Lemma filter_loop_acc (marker : string) (ivs : list interval) (acc : list word) :
  filter_loop marker ivs acc
  = (acc ++ map (annotate marker) (filter retained ivs))%list.
Proof.
  revert acc. induction ivs as [|[[s e] t] ivs IH]; intros acc; simpl.
  - now rewrite app_nil_r.
  - unfold retained at 1. simpl.
    destruct (skip_interval t); simpl.
    + apply IH.
    + rewrite IH, <- app_assoc. reflexivity.
Qed.

Lemma filter_loop_spec (marker : string) (ivs : list interval) :
  filter_loop marker ivs [] = map (annotate marker) (filter retained ivs).
Proof. apply filter_loop_acc. Qed.


(* ------------------------------------------------------------------ *)
(** ** The second loop *)

Lemma reassign_last_id (ws : list word) : reassign_last ws = ws.
Proof.
  unfold reassign_last.
  destruct (rev ws) as [|[[[a b] c] d] r] eqn:E; [reflexivity|].
  apply (f_equal (@rev word)) in E. rewrite rev_involutive in E.
  subst ws. simpl. now rewrite removelast_last.
Qed.


Section SegmenterFacts.

Variable marker : string.
Variable gap : float.
Variable target : float.

(** One iteration either closes the current phrase at the word or appends
    the word; it raises only if [last_phrase_end] is [None]. *)
Lemma seg_step_eq (st : seg_state) (w : word) (lpe : float) :
  last_phrase_end st = Some lpe ->
  seg_step marker gap target st w
  = Ok (if marker_fires gap lpe st w || duration_fires target st w
        then close_state marker st w
        else append_state marker st w).
Proof.
  intros Hlpe. destruct w as [[[s e] t] m].
  unfold seg_step, phrase_marker_condition, duration_condition,
    marker_fires, duration_fires, close_state, append_state, start_of.
  cbn [word_has_marker word_start word_end stored_word].
  rewrite Hlpe. cbn [as_float bind].
  destruct m; cbn [andb bind].
  - destruct (current_words st) as [|w0 ws] eqn:Ecw; cbn [truthy].
    + rewrite !andb_false_r. reflexivity.
    + rewrite !andb_true_r, reassign_last_id.
      destruct (geb (s - lpe) gap || _); reflexivity.
  - destruct (current_words st) as [|w0 ws] eqn:Ecw; cbn [truthy].
    + rewrite !andb_false_r. reflexivity.
    + rewrite !andb_true_r. cbn [orb].
      destruct (gtb _ target); reflexivity.
Qed.

Lemma stored_word_start (w : word) :
  word_start (stored_word marker w) = word_start w.
Proof. now destruct w as [[[s e] t] m]. Qed.

Lemma stored_word_end (w : word) :
  word_end (stored_word marker w) = word_end w.
Proof. now destruct w as [[[s e] t] m]. Qed.

Lemma stored_word_has_marker (w : word) :
  word_has_marker (stored_word marker w) = word_has_marker w.
Proof. now destruct w as [[[s e] t] m]. Qed.

Lemma all_words_snoc (ps : list phrase) (p : phrase) :
  all_words (ps ++ [p]) = (all_words ps ++ phrase_words p)%list.
Proof.
  unfold all_words. rewrite map_app, concat_app. simpl.
  now rewrite app_nil_r.
Qed.

Lemma last_completed_end_snoc (ps : list phrase) (p : phrase) :
  last_completed_end (ps ++ [p]) = phrase_end p.
Proof. unfold last_completed_end. now rewrite rev_unit. Qed.

Lemma phrase_ok_end (p : phrase) :
  phrase_ok target p -> exists e, phrase_end p = Some e.
Proof.
  destruct p as [[s [e|]] ws]; simpl; [intros _; now exists e | tauto].
Qed.

Lemma last_completed_end_some (ps : list phrase) :
  Forall (phrase_ok target) ps -> exists lpe, last_completed_end ps = Some lpe.
Proof.
  intros Hall. unfold last_completed_end.
  destruct (rev ps) as [|p r] eqn:E; [now exists 0|].
  apply phrase_ok_end. rewrite Forall_forall in Hall. apply Hall.
  apply in_rev. rewrite E. now left.
Qed.

Lemma seg_inv_last_end_some (processed : list word) (st : seg_state) :
  seg_inv marker target processed st ->
  exists lpe, last_phrase_end st = Some lpe.
Proof.
  intros [Hps _ Hlast _]. rewrite Hlast. now apply last_completed_end_some.
Qed.

Lemma phrase_ok_single (w : word) :
  phrase_ok target (word_start w, Some (word_end w), [stored_word marker w]).
Proof.
  simpl. rewrite stored_word_start, stored_word_end.
  repeat split. intros H. now contradiction H.
Qed.

Lemma seg_inv_init : seg_inv marker target [] seg_init.
Proof. constructor; simpl; auto. Qed.

Lemma seg_inv_close (processed : list word) (st : seg_state) (w : word) :
  seg_inv marker target processed st ->
  truthy (current_words st) = true ->
  seg_inv marker target (processed ++ [w]) (close_state marker st w).
Proof.
  intros [Hps Hcur Hlast Hwords] Hne.
  destruct (current_words st) as [|w0 rest] eqn:Ecw; [discriminate|].
  destruct Hcur as [cs [Hcs Hok]].
  constructor; cbn [close_state phrases current_words current_start
                      current_end last_phrase_end].
  - apply Forall_app. split; [assumption|].
    constructor; [|constructor].
    unfold start_of. rewrite Hcs, Ecw. exact Hok.
  - exists (word_start w). split; [reflexivity | apply phrase_ok_single].
  - now rewrite last_completed_end_snoc.
  - rewrite all_words_snoc. cbn [phrase_words].
    rewrite Ecw, map_app, <- Hwords. reflexivity.
Qed.

Lemma seg_inv_append (processed : list word) (st : seg_state) (w : word) :
  seg_inv marker target processed st ->
  duration_fires target st w = false ->
  seg_inv marker target (processed ++ [w]) (append_state marker st w).
Proof.
  intros [Hps Hcur Hlast Hwords] Hdur.
  constructor; cbn [append_state phrases current_words current_start
                      current_end last_phrase_end]; try assumption.
  - unfold duration_fires in Hdur.
    destruct (current_words st) as [|w0 rest] eqn:Ecw.
    + cbn [app]. exists (start_of st w). split; [reflexivity|].
      unfold start_of. rewrite Hcur. apply phrase_ok_single.
    + destruct Hcur as [cs [Hcs Hok]].
      cbn [truthy] in Hdur. rewrite andb_true_r in Hdur.
      unfold start_of in *. rewrite Hcs in *.
      exists cs. split; [reflexivity|].
      destruct (current_end st) as [e0|]; [|contradiction].
      destruct Hok as [Hs _].
      cbn [app phrase_ok]. rewrite last_last, stored_word_end.
      repeat split; [exact Hs | intros _; exact Hdur].
  - rewrite app_assoc, Hwords, map_app. reflexivity.
Qed.

(** Every iteration succeeds and re-establishes the invariant. *)
Lemma seg_step_inv (processed : list word) (st : seg_state) (w : word) :
  seg_inv marker target processed st ->
  exists st', seg_step marker gap target st w = Ok st'
              /\ seg_inv marker target (processed ++ [w]) st'.
Proof.
  intros Hinv.
  destruct (seg_inv_last_end_some _ _ Hinv) as [lpe Hlpe].
  rewrite (seg_step_eq st w lpe Hlpe).
  destruct (marker_fires gap lpe st w || duration_fires target st w) eqn:E.
  - eexists; split; [reflexivity|].
    apply seg_inv_close; [assumption|].
    unfold marker_fires, duration_fires in E.
    destruct (truthy (current_words st)); [reflexivity|].
    now rewrite !andb_false_r in E.
  - apply orb_false_iff in E. destruct E as [_ Hdur].
    eexists; split; [reflexivity|].
    now apply seg_inv_append.
Qed.

Lemma seg_loop_inv (ws processed : list word) (st : seg_state) :
  seg_inv marker target processed st ->
  exists st', seg_loop marker gap target st ws = Ok st'
              /\ seg_inv marker target (processed ++ ws) st'.
Proof.
  revert processed st. induction ws as [|w ws IH]; intros processed st Hinv.
  - exists st. split; [reflexivity | now rewrite app_nil_r].
  - destruct (seg_step_inv processed st w Hinv) as [st1 [Hstep Hinv1]].
    destruct (IH _ _ Hinv1) as [st' [Hloop Hinv']].
    exists st'. split.
    + cbn [seg_loop]. rewrite Hstep. exact Hloop.
    + now rewrite <- app_assoc in Hinv'.
Qed.

Lemma seg_finish_inv (processed : list word) (st : seg_state) :
  seg_inv marker target processed st ->
  Forall (phrase_ok target) (seg_finish st)
  /\ all_words (seg_finish st) = map (stored_word marker) processed.
Proof.
  intros [Hps Hcur Hlast Hwords]. unfold seg_finish.
  destruct (current_words st) as [|w0 rest] eqn:Ecw; cbn [truthy].
  - split; [assumption|]. now rewrite app_nil_r in Hwords.
  - destruct Hcur as [cs [Hcs Hok]]. rewrite Hcs. split.
    + apply Forall_app. split; [assumption | now constructor].
    + rewrite all_words_snoc. exact Hwords.
Qed.

(** The second loop never raises; its phrases are well formed and hold the
    stored words of its input in order. *)
Lemma segment_filtered_spec (ws : list word) :
  exists ps, segment_filtered marker gap target ws = Ok ps
             /\ Forall (phrase_ok target) ps
             /\ all_words ps = map (stored_word marker) ws.
Proof.
  destruct (seg_loop_inv ws [] seg_init seg_inv_init) as [st [Hloop Hinv]].
  exists (seg_finish st). unfold segment_filtered. rewrite Hloop.
  split; [reflexivity|]. now apply seg_finish_inv.
Qed.

End SegmenterFacts.

Lemma group_into_phrases_spec (ivs : list interval) (marker : string)
    (gap target : float) :
  exists ps, group_into_phrases ivs marker gap target = Ok ps
             /\ Forall (phrase_ok target) ps
             /\ all_words ps
                = map (stored_word marker) (filter_loop marker ivs []).
Proof. apply segment_filtered_spec. Qed.


(* ------------------------------------------------------------------ *)
(** ** The segmenter's claims *)

(** C1: the phrases returned by [group_into_phrases] hold exactly the
    filtered input words, each once, in input order: the concatenation of
    the phrases' word lists is the filtered sequence, word for word (each
    stored with its cleaned text), and no phrase is empty.  The call never
    raises. *)
Theorem C1_phrases_partition_filtered_words :
  forall (ivs : list interval) (marker : string) (gap target : float),
  exists ps,
    group_into_phrases ivs marker gap target = Ok ps
    /\ all_words ps = map (stored_word marker) (filter_loop marker ivs [])
    /\ Forall (fun p => phrase_words p <> []) ps.
Proof.
  intros ivs marker gap target.
  destruct (group_into_phrases_spec ivs marker gap target)
    as [ps [Hrun [Hok Hwords]]].
  exists ps. repeat split; try assumption.
  eapply Forall_impl; [|exact Hok].
  intros [[s [e|]] [|w0 rest]]; simpl; try tauto. discriminate.
Qed.

(** C2, as stated, fails: a one-word phrase longer than the target is closed
    by a short word.  With target 5, the word (0, 10) forms a phrase of span
    10 that is closed by the arrival of (10, 10.5), of duration 0.5: the
    span is greater than 5 + 0.5, in binary64 and on the exact values. *)
Lemma C2_counterexample :
  sorted_by_start [(0, 10, "a"); (10, 10.5, "b")] = true
  /\ gtb 5 0 = true
  /\ gtb (10 - 0) (5 + (10.5 - 10)) = true
  /\ group_into_phrases [(0, 10, "a"); (10, 10.5, "b")] "<eps>" 2 5
     = Ok [(0, Some 10, [(0, 10, "a", false)]);
           (10, Some 10.5, [(10, 10.5, "b", false)])]
  /\ ~ spec_duration_bound 5
         [(0, Some 10, [(0, 10, "a", false)]);
          (10, Some 10.5, [(10, 10.5, "b", false)])].
Proof.
  split; [reflexivity|]. split; [reflexivity|]. split; [reflexivity|].
  split; [vm_compute; reflexivity|].
  intros H.
  specialize (H [] (0, Some 10, [(0, 10, "a", false)])
                (10, Some 10.5, [(10, 10.5, "b", false)]) []
                10 (10, 10.5, "b", false) [] _ _ _
                eq_refl eq_refl eq_refl eq_refl eq_refl eq_refl).
  vm_compute in H. apply H. reflexivity.
Qed.

(** C2, amended: in every phrase of two or more words the difference
    [end - start], computed in binary64 as the code computes it, is not
    greater than [target_duration]; a phrase of one word starts and ends
    with its word, whatever the word's duration.  Every phrase starts at
    the start of its first word. *)
Theorem C2_phrase_span_bound :
  forall (ivs : list interval) (marker : string) (gap target : float),
  exists ps,
    group_into_phrases ivs marker gap target = Ok ps
    /\ forall p, In p ps ->
         exists e w0 rest,
           phrase_end p = Some e
           /\ phrase_words p = w0 :: rest
           /\ phrase_start p = word_start w0
           /\ (rest <> [] -> gtb (e - phrase_start p) target = false)
           /\ (rest = [] -> e = word_end w0).
Proof.
  intros ivs marker gap target.
  destruct (group_into_phrases_spec ivs marker gap target)
    as [ps [Hrun [Hok _]]].
  exists ps. split; [assumption|].
  intros p Hp.
  rewrite Forall_forall in Hok. specialize (Hok p Hp).
  destruct p as [[s [e|]] [|w0 rest]]; simpl in Hok; try tauto.
  destruct Hok as [Hs [He Hspan]].
  exists e, w0, rest. cbn [phrase_end phrase_words phrase_start].
  repeat split; try assumption.
  intros ->. exact He.
Qed.

(** After any run of the second loop, [last_phrase_end] is the end of the
    most recently completed phrase. *)
Lemma seg_loop_reaches_inv (marker : string) (gap target : float)
    (pre : list word) (st : seg_state) :
  seg_loop marker gap target seg_init pre = Ok st ->
  seg_inv marker target pre st.
Proof.
  intros Hrun.
  destruct (seg_loop_inv marker gap target pre [] seg_init
              (seg_inv_init marker target)) as [st' [Hloop Hinv]].
  rewrite Hrun in Hloop. now inversion Hloop.
Qed.




(** C4, as stated, fails: the interval with text [" <p:> "] trims to the
    silence token, yet the first loop retains it, and the segmenter returns
    it as a one-word phrase. *)
Lemma C4_counterexample :
  spec_discards " <p:> " = true
  /\ filter_loop "<eps>" [(0, 1, " <p:> ")] [] = [(0, 1, " <p:> ", false)]
  /\ group_into_phrases [(0, 1, " <p:> ")] "<eps>" 2 5
     = Ok [(0, Some 1, [(0, 1, "<p:>", false)])].
Proof. repeat split; vm_compute; reflexivity. Qed.

(** C4, amended: the first loop discards exactly the intervals whose text is
    empty after trimming or whose untrimmed text is exactly the silence
    token; every other interval is retained, in order, with [has_marker]
    telling whether the marker is a substring of the original text.  The
    interval with text [" <p:> "] is retained. *)
Theorem C4_filter_discards_exactly :
  forall (marker : string) (ivs : list interval),
  filter_loop marker ivs [] = map (annotate marker) (filter retained ivs)
  /\ (forall iv, retained iv = false
                 <-> strip (interval_text iv) = ""
                     \/ interval_text iv = "<p:>")
  /\ (forall s e t,
        annotate marker (s, e, t) = (s, e, t, contains marker t)
        /\ (contains marker t = true <-> exists l r, t = l ++ marker ++ r))
  /\ retained (0, 1, " <p:> ") = true.
Proof.
  intros marker ivs. split; [apply filter_loop_spec|]. split; [|split].
  - intros [[s e] t]. unfold retained, skip_interval. cbn [interval_text].
    rewrite negb_false_iff, orb_true_iff, is_empty_iff, String.eqb_eq.
    reflexivity.
  - intros s e t. split; [reflexivity | apply contains_iff].
  - reflexivity.
Qed.

(* ------------------------------------------------------------------ *)
(** ** Truncation and floor *)

Lemma py_int_error (x : float) (e : exn) :
  py_int x = Raise e -> int_error e.
Proof.
  unfold py_int, int_error.
  destruct (Prim2SF x); intros H; try discriminate; injection H as <-; auto.
Qed.

(** [int()] and [math.floor] succeed on the same floats; the integers they
    give differ by at most one and are equal when the floor is not
    negative. *)
Lemma py_int_floor_cases (x : float) (f : Z) :
  py_floor x = Ok f ->
  exists n, py_int x = Ok n
            /\ (n = f \/ n = (f + 1)%Z)
            /\ ((0 <= f)%Z -> n = f).
Proof.
  unfold py_floor, py_int.
  destruct (Prim2SF x) as [s|s| |s m e]; try discriminate.
  - intros H. injection H as <-. exists 0%Z. auto.
  - destruct (0 <=? e)%Z.
    + intros H. injection H as <-. eexists. split; [reflexivity|]. auto.
    + pose proof (Z.shiftr_nonneg (Zpos m) (- e)) as Hnn.
      assert (Ha : (0 <= Z.shiftr (Zpos m) (- e))%Z) by (apply Hnn; lia).
      destruct s.
      * destruct (Z.shiftl (Z.shiftr (Zpos m) (- e)) (- e) =? Zpos m)%Z eqn:E;
          intros H; injection H as <-; eexists; (split; [reflexivity|]).
        -- auto.
        -- split; [right; lia | intros; lia].
      * intros H. injection H as <-. eexists. split; [reflexivity|]. auto.
Qed.

Lemma py_floor_raise (x : float) (e : exn) :
  py_floor x = Raise e -> py_int x = Raise e.
Proof.
  unfold py_floor, py_int.
  destruct (Prim2SF x) as [s|s| |s m z]; try discriminate;
    try (intros H; exact H).
  destruct (0 <=? z)%Z; discriminate.
Qed.

Lemma scaled_up (m : positive) (e : Z) :
  (0 <= e)%Z ->
  (inject_Z (Zpos m) * Qpower 2 e == inject_Z (Z.shiftl (Zpos m) e))%Q.
Proof.
  intros He. rewrite Z.shiftl_mul_pow2 by assumption.
  rewrite inject_Z_mult, Zpower_Qpower by assumption. reflexivity.
Qed.

Lemma scaled_down (m : positive) (e : Z) :
  (e < 0)%Z ->
  (inject_Z (Zpos m) * Qpower 2 e
   == inject_Z (Zpos m) / inject_Z (2 ^ (- e)))%Q.
Proof.
  intros He. rewrite Zpower_Qpower by lia.
  rewrite <- (Z.opp_involutive e) at 1. rewrite Qpower_opp. reflexivity.
Qed.

Lemma scaled_pos (m : positive) (e : Z) :
  (0 < inject_Z (Zpos m) * Qpower 2 e)%Q.
Proof.
  apply Qmult_lt_0_compat; [reflexivity | now apply Qpower_0_lt].
Qed.

Lemma exact_trunc_nonneg (q : Q) : (0 <= q)%Q -> exact_trunc q = Qfloor q.
Proof.
  intros H. unfold exact_trunc. apply Qle_bool_iff in H. now rewrite H.
Qed.

Lemma exact_trunc_neg (q : Q) :
  (0 < q)%Q -> exact_trunc (- q) = (- Qfloor q)%Z.
Proof.
  intros H. unfold exact_trunc.
  destruct (Qle_bool 0 (- q)) eqn:E.
  - apply Qle_bool_iff in E. exfalso.
    apply (Qlt_irrefl 0). apply Qlt_le_trans with q; [assumption|].
    apply Qopp_le_compat in E. now rewrite Qopp_involutive in E.
  - unfold Qceiling. now rewrite (Qfloor_comp _ _ (Qopp_involutive q)).
Qed.

Lemma scaled_floor (m : positive) (e : Z) :
  Qfloor (inject_Z (Zpos m) * Qpower 2 e)
  = if (0 <=? e)%Z then Z.shiftl (Zpos m) e else Z.shiftr (Zpos m) (- e).
Proof.
  destruct (0 <=? e)%Z eqn:E.
  - apply Z.leb_le in E. rewrite (Qfloor_comp _ _ (scaled_up m e E)).
    apply Qfloor_Z.
  - apply Z.leb_gt in E. rewrite (Qfloor_comp _ _ (scaled_down m e E)).
    rewrite <- Zdiv_Qdiv. symmetry. apply Z.shiftr_div_pow2. lia.
Qed.

(** [int()] truncates the exact value of its argument toward zero. *)
Lemma py_int_truncates (x : float) (n : Z) :
  py_int x = Ok n ->
  exists q, exact_value x = Some q /\ n = exact_trunc q.
Proof.
  unfold py_int, exact_value.
  destruct (Prim2SF x) as [s|s| |s m e]; try discriminate.
  - intros H. injection H as <-. exists 0%Q. auto.
  - intros H. injection H as <-. eexists. split; [reflexivity|].
    destruct s.
    + rewrite exact_trunc_neg by apply scaled_pos. now rewrite scaled_floor.
    + rewrite exact_trunc_nonneg by apply Qlt_le_weak, scaled_pos.
      now rewrite scaled_floor.
Qed.

(** [py_floor] gives the floor of the exact value of its argument. *)
Lemma py_floor_exact (x : float) (f : Z) :
  py_floor x = Ok f ->
  exists q, exact_value x = Some q /\ f = Qfloor q.
Proof.
  unfold py_floor, exact_value.
  destruct (Prim2SF x) as [s|s| |s m e]; try discriminate.
  - intros H. injection H as <-. exists 0%Q. auto.
  - destruct (0 <=? e)%Z eqn:E.
    + intros H. injection H as <-. eexists. split; [reflexivity|].
      apply Z.leb_le in E. destruct s.
      * rewrite (Qfloor_comp _ (inject_Z (- Z.shiftl (Zpos m) e))).
        -- now rewrite Qfloor_Z.
        -- rewrite (scaled_up m e E), inject_Z_opp. reflexivity.
      * rewrite (Qfloor_comp _ _ (scaled_up m e E)). now rewrite Qfloor_Z.
    + intros H. injection H as <-. eexists. split; [reflexivity|].
      apply Z.leb_gt in E. destruct s.
      * rewrite (Qfloor_comp _ (inject_Z (- Zpos m) / inject_Z (2 ^ (- e)))).
        2:{ rewrite (scaled_down m e E), inject_Z_opp. field.
            intros H0.
            assert (Hlt : (inject_Z 0 < inject_Z (2 ^ (- e)))%Q)
              by (rewrite <- Zlt_Qlt; apply Z.pow_pos_nonneg; lia).
            rewrite H0 in Hlt. exact (Qlt_irrefl _ Hlt). }
        rewrite <- Zdiv_Qdiv.
        rewrite Z.shiftr_div_pow2, Z.shiftl_mul_pow2 by lia.
        assert (Hp : (0 < 2 ^ (- e))%Z) by (apply Z.pow_pos_nonneg; lia).
        destruct (Z.eqb_spec (Z.pos m / 2 ^ (- e) * 2 ^ (- e)) (Z.pos m))
          as [Hw|Hw].
        -- rewrite Z.div_opp_l_z; [reflexivity | lia |].
           rewrite Z.mod_eq by lia. lia.
        -- rewrite Z.div_opp_l_nz; [reflexivity | lia |].
           rewrite Z.mod_eq by lia. lia.
      * rewrite (Qfloor_comp _ _ (scaled_down m e E)).
        rewrite <- Zdiv_Qdiv. apply Z.shiftr_div_pow2. lia.
Qed.

(* ------------------------------------------------------------------ *)
(** ** Signs of binary64 results *)

Lemma leb_zero_l (x : float) :
  (0 <=? x) = true -> sf_not_negative (Prim2SF x).
Proof.
  rewrite leb_spec. change (Prim2SF 0) with (S754_zero false).
  destruct (Prim2SF x) as [s|s| |s m e]; cbn; try destruct s;
    intuition congruence.
Qed.


Lemma binary_round_aux_sign (sx : bool) (mx ex : Z) (lx : location) :
  match binary_round_aux prec emax sx mx ex lx with
  | S754_zero s | S754_infinity s | S754_finite s _ _ => s = sx
  | S754_nan => True
  end.
Proof.
  unfold binary_round_aux.
  destruct (shr_fexp prec emax mx ex lx) as [mrs' e'].
  destruct (shr_fexp prec emax _ e' loc_Exact) as [mrs'' e''].
  destruct (shr_m mrs''); [reflexivity | | exact I].
  destruct (e'' <=? emax - prec)%Z; reflexivity.
Qed.

Lemma binary_round_aux_not_negative (mx ex : Z) (lx : location) :
  sf_not_negative (binary_round_aux prec emax false mx ex lx).
Proof.
  pose proof (binary_round_aux_sign false mx ex lx) as H.
  destruct (binary_round_aux prec emax false mx ex lx); cbn; auto.
Qed.

Lemma binary_normalize_not_negative (m e : Z) (szero : bool) :
  (0 <= m)%Z -> sf_not_negative (binary_normalize prec emax m e szero).
Proof.
  intros Hm. destruct m as [|p|p]; cbn [binary_normalize]; [exact I | | lia].
  unfold binary_round. destruct (shl_align _ _ _) as [mz ez].
  apply binary_round_aux_not_negative.
Qed.

Lemma py_floor_not_negative (x : float) (f : Z) :
  sf_not_negative (Prim2SF x) -> py_floor x = Ok f -> (0 <= f)%Z.
Proof.
  unfold py_floor. destruct (Prim2SF x) as [s|s| |s m e]; cbn;
    try discriminate.
  - intros _ H. injection H as <-. lia.
  - intros ->. destruct (0 <=? e)%Z; intros H; injection H as <-.
    + apply Z.shiftl_nonneg. lia.
    + apply Z.shiftr_nonneg. lia.
Qed.

Lemma mul_100_not_negative (x : float) :
  sf_not_negative (Prim2SF x) -> sf_not_negative (Prim2SF (x * 100)).
Proof.
  rewrite mul_spec.
  change (Prim2SF 100) with (S754_finite false 7036874417766400 (-46)).
  destruct (Prim2SF x) as [s|s| |s m e]; cbn [sf_not_negative];
    try (intros ->); try (intros _); try exact I; try reflexivity.
  unfold SF64mul, SFmul. cbn [xorb].
  apply binary_round_aux_not_negative.
Qed.

Lemma digits2_pos_bounds (m : positive) :
  (2 ^ (Z.pos (digits2_pos m) - 1) <= Z.pos m < 2 ^ Z.pos (digits2_pos m))%Z.
Proof.
  induction m as [m IH|m IH|]; cbn [digits2_pos].
  - rewrite Pos2Z.inj_succ, Z.pow_succ_r by lia.
    replace (Z.succ (Z.pos (digits2_pos m)) - 1)%Z
      with (Z.succ (Z.pos (digits2_pos m) - 1)) by lia.
    rewrite Z.pow_succ_r by lia. lia.
  - rewrite Pos2Z.inj_succ, Z.pow_succ_r by lia.
    replace (Z.succ (Z.pos (digits2_pos m)) - 1)%Z
      with (Z.succ (Z.pos (digits2_pos m) - 1)) by lia.
    rewrite Z.pow_succ_r by lia. lia.
  - cbn. lia.
Qed.

Lemma iter_xO_pow2 (m d : positive) :
  Z.pos (Pos.iter xO m d) = (Z.pos m * 2 ^ Z.pos d)%Z.
Proof.
  induction d as [|d IH] using Pos.peano_ind.
  - cbn. lia.
  - rewrite Pos.iter_succ, Pos2Z.inj_succ, Z.pow_succ_r by lia.
    rewrite Pos2Z.inj_xO, IH. lia.
Qed.

Lemma shl_align_value (m : positive) (e e' : Z) :
  (e' <= e)%Z ->
  Z.pos (fst (shl_align m e e')) = (Z.pos m * 2 ^ (e - e'))%Z.
Proof.
  intros He. unfold shl_align.
  destruct (e' - e)%Z as [|p|p] eqn:E; cbn [fst].
  - replace (e - e')%Z with 0%Z by lia. cbn. lia.
  - lia.
  - rewrite iter_xO_pow2. replace (e - e')%Z with (Z.pos p) by lia.
    reflexivity.
Qed.

(** Of two numbers in canonical form, the one with the larger exponent is
    the larger. *)
Lemma canonical_exponent_order (m1 : positive) (e1 : Z) (m2 : positive)
    (e2 : Z) :
  bounded prec emax m1 e1 = true ->
  bounded prec emax m2 e2 = true ->
  (e1 < e2)%Z ->
  (Z.pos m1 < Z.pos m2 * 2 ^ (e2 - e1))%Z.
Proof.
  unfold bounded, canonical_mantissa, fexp, SpecFloat.emin.
  intros H1 H2 Hlt.
  apply andb_true_iff in H1. destruct H1 as [H1 _].
  apply andb_true_iff in H2. destruct H2 as [H2 _].
  apply Z.eqb_eq in H1. apply Z.eqb_eq in H2.
  change prec with 53%Z in *. change emax with 1024%Z in *.
  pose proof (digits2_pos_bounds m1) as [_ Hu].
  pose proof (digits2_pos_bounds m2) as [Hl _].
  assert (Hd2 : Z.pos (digits2_pos m2) = 53%Z) by lia.
  assert (Hd1 : (Z.pos (digits2_pos m1) <= 53)%Z) by lia.
  rewrite Hd2 in Hl. change (53 - 1)%Z with 52%Z in Hl.
  assert (Hp : (2 ^ Z.pos (digits2_pos m1) <= 2 ^ 53)%Z)
    by (apply Z.pow_le_mono_r; lia).
  assert (Hq : (2 ^ 1 <= 2 ^ (e2 - e1))%Z)
    by (apply Z.pow_le_mono_r; lia).
  change (2 ^ 1)%Z with 2%Z in Hq.
  change (2 ^ 53)%Z with (2 ^ 52 * 2)%Z in Hp.
  nia.
Qed.

Lemma SFsub_not_negative (a b : spec_float) :
  valid_binary a = true -> valid_binary b = true ->
  SFleb a b = true ->
  sf_not_negative (SFsub prec emax b a).
Proof.
  intros Va Vb. unfold SFleb.
  destruct a as [sa|sa| |sa ma ea], b as [sb|sb| |sb mb eb];
    cbn [SFcompare SFsub sf_not_negative]; try discriminate;
    try (intros _; exact I).
  all: try (destruct sa, sb; cbn; try discriminate; intros _; auto; fail).
  all: try (destruct sa; cbn; try discriminate; intros _; auto; fail).
  all: try (destruct sb; cbn; try discriminate; intros _; auto; fail).
  intros Hcmp. apply binary_normalize_not_negative.
  cbn [SpecFloat.valid_binary] in Va, Vb.
  destruct (Z.compare_spec ea eb) as [Heq|Hlt|Hgt].
  - subst eb. rewrite Z.min_id.
    rewrite !shl_align_value by lia. rewrite Z.sub_diag. cbn [Z.pow].
    rewrite !Z.mul_1_r.
    change (PosDef.Pos.compare_cont Eq ma mb) with (Pos.compare ma mb)
      in Hcmp.
    destruct sa, sb; cbn [cond_Zopp]; try discriminate; try lia.
    + destruct (Pos.compare_spec ma mb); cbn in Hcmp; try discriminate; lia.
    + destruct (Pos.compare_spec ma mb); cbn in Hcmp; try discriminate; lia.
  - pose proof (canonical_exponent_order ma ea mb eb Va Vb Hlt) as Hord.
    replace (IntDef.Z.min eb ea) with ea
      by (change IntDef.Z.min with Z.min; lia).
    rewrite !shl_align_value by lia. rewrite Z.sub_diag. cbn [Z.pow].
    rewrite !Z.mul_1_r.
    destruct sa, sb; cbn [cond_Zopp]; try discriminate; try lia.
  - pose proof (canonical_exponent_order mb eb ma ea Vb Va ltac:(lia))
      as Hord.
    replace (IntDef.Z.min eb ea) with eb
      by (change IntDef.Z.min with Z.min; lia).
    rewrite !shl_align_value by lia. rewrite Z.sub_diag. cbn [Z.pow].
    rewrite !Z.mul_1_r.
    destruct sa, sb; cbn [cond_Zopp]; try discriminate; try lia.
Qed.

(** When [x <= y] holds the difference [y - x] is not negative. *)
Lemma sub_not_negative (x y : float) :
  (x <=? y) = true -> sf_not_negative (Prim2SF (y - x)).
Proof.
  rewrite leb_spec, sub_spec. apply SFsub_not_negative; apply Prim2SF_valid.
Qed.

(** The floor of the centiseconds of a word with [start <= end] is not
    negative. *)
Lemma floor_cs_not_negative (s e : float) (f : Z) :
  (s <=? e) = true -> py_floor ((e - s) * 100) = Ok f -> (0 <= f)%Z.
Proof.
  intros Hle. apply py_floor_not_negative, mul_100_not_negative.
  now apply sub_not_negative.
Qed.


(** Where the floor is not negative, or is not defined, [int()] and
    [math.floor] agree. *)
Lemma py_int_floor_agree (x : float) :
  (forall f, py_floor x = Ok f -> (0 <= f)%Z) -> py_int x = py_floor x.
Proof.
  intros Hnn. destruct (py_floor x) as [f|err] eqn:Ef.
  - destruct (py_int_floor_cases _ _ Ef) as [n [Hn [_ Heq]]].
    rewrite Hn, (Heq (Hnn f eq_refl)). reflexivity.
  - now apply py_floor_raise.
Qed.

(* ------------------------------------------------------------------ *)
(** ** What [format_time] raises *)

Lemma float_of_int_error (n : Z) (e : exn) :
  float_of_int n = Raise e -> int_error e.
Proof.
  unfold float_of_int, int_error.
  destruct (is_infinity _); intros H; [|discriminate].
  injection H as <-. auto.
Qed.

Lemma py_mod_literal (x y : float) :
  is_zero y = false -> exists r, py_mod x y = Ok r.
Proof.
  intros Hy. unfold py_mod. rewrite Hy.
  destruct (is_zero (fmod x y)); [eexists; reflexivity|].
  destruct (xorb _ _); eexists; reflexivity.
Qed.

(** The steps of [format_time], one by one. *)
Lemma format_time_steps (x : float) :
  exists r sec,
    py_mod x 3600 = Ok r
    /\ py_mod x 60 = Ok sec
    /\ format_time x
       = (hours <- py_int (x / 3600) ;;
          minutes <- py_int (r / 60) ;;
          whole <- py_int sec ;;
          whole_f <- float_of_int whole ;;
          centiseconds <- py_int ((sec - whole_f) * 100) ;;
          Ok (str_of_int hours ++ ":" ++ fmt_02d minutes ++ ":"
                ++ fmt_02d whole ++ "." ++ fmt_02d centiseconds)).
Proof.
  destruct (py_mod_literal x 3600 eq_refl) as [r Hr].
  destruct (py_mod_literal x 60 eq_refl) as [sec Hsec].
  exists r, sec. split; [exact Hr|]. split; [exact Hsec|].
  unfold format_time. rewrite Hr, Hsec.
  change (py_div x 3600) with (Ok (x / 3600)).
  change (py_div r 60) with (Ok (r / 60)).
  reflexivity.
Qed.

(** [format_time] raises nothing but what [int()] raises. *)
Lemma format_time_error (x : float) (e : exn) :
  format_time x = Raise e -> int_error e.
Proof.
  destruct (format_time_steps x) as [r [s [_ [_ ->]]]].
  destruct (py_int (x / 3600)) as [h|err] eqn:Eh; cbn [bind];
    [|intros H; injection H as <-; exact (py_int_error _ _ Eh)].
  destruct (py_int (r / 60)) as [m|err] eqn:Em; cbn [bind];
    [|intros H; injection H as <-; exact (py_int_error _ _ Em)].
  destruct (py_int s) as [w|err] eqn:Ew; cbn [bind];
    [|intros H; injection H as <-; exact (py_int_error _ _ Ew)].
  destruct (float_of_int w) as [wf|err] eqn:Ef; cbn [bind];
    [|intros H; injection H as <-; exact (float_of_int_error _ _ Ef)].
  destruct (py_int ((s - wf) * 100)) as [c|err] eqn:Ec; cbn [bind];
    [discriminate|intros H; injection H as <-; exact (py_int_error _ _ Ec)].
Qed.

(* ------------------------------------------------------------------ *)
(** ** The encoder *)

Lemma bind_assoc {A B C : Type} (m : result A) (f : A -> result B)
    (g : B -> result C) :
  bind (bind m f) g = bind m (fun a => bind (f a) g).
Proof. destruct m; reflexivity. Qed.

Lemma bind_ok_r {A : Type} (m : result A) : bind m (fun a => Ok a) = m.
Proof. destruct m; reflexivity. Qed.

Lemma karaoke_loop_markup (ws : list word) (i : nat) (acc : string) :
  karaoke_loop i acc ws
  = (b <- markup_from py_int i ws ;; Ok (acc ++ b)).
Proof.
  revert i acc. induction ws as [|[[[s e] t] m] ws IH]; intros i acc.
  - cbn. now rewrite append_nil_r.
  - cbn [karaoke_loop markup_from word_markup].
    destruct (py_int ((e - s) * 100)) as [n|err]; cbn [bind]; [|reflexivity].
    rewrite IH.
    destruct (markup_from py_int (S i) ws) as [b|err]; cbn [bind];
      [|reflexivity].
    destruct ((0 <? i)%nat && m); rewrite !append_assoc; reflexivity.
Qed.

Lemma create_karaoke_line_markup (ws : list word) :
  create_karaoke_line ws = markup_from py_int 0 ws.
Proof.
  unfold create_karaoke_line. rewrite karaoke_loop_markup.
  apply bind_ok_r.
Qed.

Lemma markup_from_app (dur : float -> result Z) (pre post : list word)
    (i : nat) :
  markup_from dur i (pre ++ post)
  = (a <- markup_from dur i pre ;;
     b <- markup_from dur (i + List.length pre) post ;;
     Ok (a ++ b)).
Proof.
  revert i. induction pre as [|w pre IH]; intros i; cbn [app markup_from].
  - cbn [bind List.length]. rewrite Nat.add_0_r.
    symmetry. apply bind_ok_r.
  - destruct (word_markup dur i w) as [a|err]; cbn [bind]; [|reflexivity].
    rewrite IH. cbn [List.length]. rewrite Nat.add_succ_r. cbn [Nat.add].
    destruct (markup_from dur (S i) pre) as [b|err]; cbn [bind];
      [|reflexivity].
    destruct (markup_from dur (S (i + List.length pre)) post) as [c|err];
      cbn [bind]; [|reflexivity].
    now rewrite append_assoc.
Qed.

Lemma markup_from_floor (ws : list word) (i : nat) :
  Forall (fun w => forall f,
            py_floor ((word_end w - word_start w) * 100) = Ok f ->
            (0 <= f)%Z) ws ->
  markup_from py_int i ws = markup_from py_floor i ws.
Proof.
  intros Hall. revert i.
  induction Hall as [|[[[s e] t] m] ws Hnn _ IH]; intros i.
  - reflexivity.
  - cbn [markup_from word_markup]. cbn [word_end word_start] in Hnn.
    now rewrite (py_int_floor_agree _ Hnn), IH.
Qed.

Lemma markup_from_error (ws : list word) (i : nat) (e : exn) :
  markup_from py_int i ws = Raise e -> int_error e.
Proof.
  revert i. induction ws as [|[[[s t] x] m] ws IH]; intros i;
    cbn [markup_from word_markup]; [discriminate|].
  destruct (py_int ((t - s) * 100)) as [n|err] eqn:En; cbn [bind];
    [|intros H; injection H as <-; exact (py_int_error _ _ En)].
  destruct (markup_from py_int (S i) ws) as [b|err] eqn:Eb; cbn [bind];
    [discriminate|].
  intros H. injection H as <-. exact (IH _ Eb).
Qed.

(** C5, as stated, fails.  The tag carries the rounded binary64 product,
    truncated toward zero: for the word (0, 0.35) the code writes 35 where
    the floor of the exact [(end - start) * 100] is 34; and on a negative
    product truncation is not the floor: for the word (1, 0.875) the code
    writes -12 where the floor is -13. *)
Lemma C5_counterexample :
  create_karaoke_line [(0, 0.35, "x", false)] = Ok "{\K35}x "
  /\ exact_floor_cs 0 0.35 = Some 34%Z
  /\ create_karaoke_line [(1, 0.875, "x", false)] = Ok "{\K-12}x "
  /\ spec_encode [(1, 0.875, "x", false)] = Ok "{\K-13}x "
  /\ exact_floor_cs 1 0.875 = Some (-13)%Z.
Proof. repeat split; vm_compute; reflexivity. Qed.

(** C5, amended: the encoder outputs, for each word in order, an extra
    space when the word is not the first and has the marker, then the tag
    with [int((end - start) * 100)], the text and one space, and nothing
    else.  The number of the tag is the binary64 product truncated toward
    zero; it is the floor of that product for every word with
    [start <= end], and more generally whenever the floor is not negative,
    and the floor or one more otherwise.  The call raises only what [int()]
    raises, on a product that is not finite.  For a one-word phrase the
    output is one tag with no leading space, whatever [has_marker]. *)
Theorem C5_encoder_output :
  forall ws : list word,
  create_karaoke_line ws = markup_from py_int 0 ws
  /\ (forall i s e t m,
        word_markup py_int i (s, e, t, m)
        = (n <- py_int ((e - s) * 100) ;;
           Ok ((if (0 <? i)%nat && m then " " else "")
                 ++ "{\K" ++ str_of_int n ++ "}" ++ t ++ " ")))
  /\ (forall s e t m,
        create_karaoke_line [(s, e, t, m)]
        = (n <- py_int ((e - s) * 100) ;;
           Ok ("{\K" ++ str_of_int n ++ "}" ++ t ++ " ")))
  /\ (forall x n,
        py_int x = Ok n ->
        exists q, exact_value x = Some q /\ n = exact_trunc q)
  /\ (forall x f,
        py_floor x = Ok f ->
        (exists q, exact_value x = Some q /\ f = Qfloor q)
        /\ exists n, py_int x = Ok n
                     /\ (n = f \/ n = (f + 1)%Z)
                     /\ ((0 <= f)%Z -> n = f))
  /\ (forall e, create_karaoke_line ws = Raise e -> int_error e)
  /\ (Forall (fun w => forall f,
                py_floor ((word_end w - word_start w) * 100) = Ok f ->
                (0 <= f)%Z) ws ->
      create_karaoke_line ws = spec_encode ws)
  /\ (Forall (fun w => (word_start w <=? word_end w) = true) ws ->
      create_karaoke_line ws = spec_encode ws).
Proof.
  intros ws.
  split; [apply create_karaoke_line_markup|]. split; [reflexivity|].
  split; [|split; [|split; [|split; [|split]]]].
  - intros s e t m. rewrite create_karaoke_line_markup.
    cbn [markup_from word_markup].
    destruct (py_int ((e - s) * 100)) as [n|err]; cbn [bind]; [|reflexivity].
    cbn [Nat.ltb Nat.leb andb]. now rewrite !append_assoc, append_nil_r.
  - apply py_int_truncates.
  - intros x f Hf. split; [now apply py_floor_exact|].
    now apply py_int_floor_cases.
  - intros e. rewrite create_karaoke_line_markup. apply markup_from_error.
  - intros Hall. rewrite create_karaoke_line_markup.
    now apply markup_from_floor.
  - intros Hall. rewrite create_karaoke_line_markup.
    apply markup_from_floor. eapply Forall_impl; [|exact Hall].
    intros [[[s e] t] m] Hle f. cbn [word_start word_end] in *.
    now apply floor_cs_not_negative.
Qed.

Lemma C5_encoder_output_witness :
  create_karaoke_line [(0, 0.29, "hello", false); (0.29, 2, "world", true)]
  = spec_encode [(0, 0.29, "hello", false); (0.29, 2, "world", true)].
Proof.
  destruct (C5_encoder_output
              [(0, 0.29, "hello", false); (0.29, 2, "world", true)])
    as [_ [_ [_ [_ [_ [_ [_ Hfloor]]]]]]].
  apply Hfloor. repeat constructor.
Defined.



Example marker_only_word_sample :
  group_into_phrases [(0, 1, "hello"); (1, 2, "<eps>")] "<eps>" 2 5
  = Ok [(0, Some 2, [(0, 1, "hello", false); (1, 2, "", true)])]
  /\ create_karaoke_line [(0, 1, "hello", false); (1, 2, "", true)]
     = Ok "{\K100}hello  {\K100} ".
Proof. split; vm_compute; reflexivity. Qed.

(* ------------------------------------------------------------------ *)
(** ** The dialogue events and the file *)








Example dialogue_event_sample :
  dialogue_event "Default" (Some (-0.5)) (0.2, Some 1, [(0.2, 1, "hello", false)])
  = Ok "Dialogue: 0,0:00:00.00,0:00:01.00,Default,,0,0,0,,{\K50}{\K80}hello "
  /\ dialogue_event "Default" (Some (-0.29)) (1, Some 2, [(1, 2, "hello", false)])
     = Ok "Dialogue: 0,0:00:00.71,0:00:02.00,Default,,0,0,0,,{\K28}{\K100}hello "
  /\ dialogue_event "Default" (Some nan) (1, Some 2, [(1, 2, "hello", false)])
     = Raise ValueError
  /\ dialogue_event "Default" (Some 1e307) (1, Some 2, [(1, 2, "hello", false)])
     = Raise OverflowError.
Proof. repeat split; vm_compute; reflexivity. Qed.



(** C7 fails on the code: with [--shift-time] omitted the attribute is
    [None], and on a tier with one retained word [main] ends with an uncaught
    [TypeError] and writes no file, whereas with [--shift-time 0] the same
    input is converted. *)
Theorem C7_omitted_shift_time_raises :
  main (bare_cli "in.TextGrid" "out.ass") [("words", [(0, 1, "hello")])]
  = Crashed TypeError
  /\ main (with_shift_time (bare_cli "in.TextGrid" "out.ass") 0)
          [("words", [(0, 1, "hello")])]
     = Converted
         (header "Default"
            ++ "Dialogue: 0,0:00:00.00,0:00:01.00,Default,,0,0,0,,{\K0}{\K100}hello ").
Proof. split; vm_compute; reflexivity. Qed.

(** An all-silence tier: nothing is retained, no phrase, header only. *)
Lemma all_silence_header :
  forall (ivs : list interval) (style_name marker : string) (gap target : float)
         (shift : option float),
  (forall iv, In iv ivs ->
     strip (interval_text iv) = "" \/ interval_text iv = "<p:>") ->
  filter_loop marker ivs [] = []
  /\ group_into_phrases ivs marker gap target = Ok []
  /\ create_ass_file ivs style_name marker gap target shift
     = Ok (header style_name).
Proof.
  intros ivs style_name marker gap target shift Hall.
  assert (Hfil : filter_loop marker ivs [] = []).
  { rewrite filter_loop_spec.
    replace (filter retained ivs) with (@nil interval); [reflexivity|].
    symmetry. induction ivs as [|iv ivs IH]; [reflexivity|].
    cbn [filter].
    assert (Hiv : retained iv = false).
    { unfold retained, skip_interval.
      destruct (Hall iv (or_introl eq_refl)) as [H|H]; rewrite H.
      - reflexivity.
      - cbn. reflexivity. }
    rewrite Hiv. apply IH. intros iv' Hiv'. apply Hall. now right. }
  assert (Hrun : group_into_phrases ivs marker gap target = Ok []).
  { unfold group_into_phrases. rewrite Hfil. reflexivity. }
  split; [exact Hfil|]. split; [exact Hrun|].
  unfold create_ass_file. rewrite Hrun. cbn [bind events_loop join].
  now rewrite append_nil_r.
Qed.

Lemma main_all_silence (c : cli) (tiers : tiers_dict) (ivs : list interval) :
  lookup_tier (tier (parse_args c)) tiers = Some ivs ->
  (forall iv, In iv ivs ->
     strip (interval_text iv) = "" \/ interval_text iv = "<p:>") ->
  main c tiers = Converted (header (style (parse_args c))).
Proof.
  intros Hlook Hall. unfold main. rewrite Hlook.
  destruct (all_silence_header ivs (style (parse_args c))
              (arg_phrase_marker (parse_args c))
              (arg_min_phrase_gap (parse_args c))
              (arg_target_duration (parse_args c))
              (shift_time (parse_args c)) Hall) as [_ [_ Hfile]].
  now rewrite Hfile.
Qed.

(** C8: when every interval's text is empty after trimming or is the
    silence token, no word is retained, the segmenter returns no phrase and
    the file written is the header alone; nothing raises, whatever the
    shift (even absent), and [main] reports the conversion. *)
Theorem C8_all_silence_header_only :
  forall ivs : list interval,
  (forall iv, In iv ivs ->
     strip (interval_text iv) = "" \/ interval_text iv = "<p:>") ->
  (forall marker, filter_loop marker ivs [] = [])
  /\ (forall marker gap target,
        group_into_phrases ivs marker gap target = Ok [])
  /\ (forall style_name marker gap target shift,
        create_ass_file ivs style_name marker gap target shift
        = Ok (header style_name))
  /\ (forall c tiers,
        lookup_tier (tier (parse_args c)) tiers = Some ivs ->
        main c tiers = Converted (header (style (parse_args c)))).
Proof.
  intros ivs Hall. repeat split; intros.
  - now apply (all_silence_header ivs "" marker 0 0 None).
  - now apply (all_silence_header ivs "" marker gap target None).
  - now apply all_silence_header.
  - now apply (main_all_silence c tiers ivs).
Qed.

Lemma C8_all_silence_header_only_witness :
  create_ass_file [(0, 1, ""); (1, 2, "<p:>"); (2, 3, "  ")]
    "Default" "<eps>" 2 5 None
  = Ok (header "Default").
Proof.
  destruct (C8_all_silence_header_only
              [(0, 1, ""); (1, 2, "<p:>"); (2, 3, "  ")]) as [_ [_ [Hfile _]]].
  - intros iv [<-|[<-|[<-|[]]]]; cbn [interval_text].
    + left. reflexivity.
    + right. reflexivity.
    + left. reflexivity.
  - apply Hfile.
Defined.

(* ------------------------------------------------------------------ *)
(** ** [format_time] *)






(* ------------------------------------------------------------------ *)
(** ** Further properties of the segmenter *)

(** X1: [group_into_phrases] never raises, and every phrase it returns is
    non-empty, starts at the start of its first word and ends at the end of
    its last word (its end is never [None]). *)
Theorem X1_phrases_well_formed :
  forall (ivs : list interval) (marker : string) (gap target : float),
  exists ps,
    group_into_phrases ivs marker gap target = Ok ps
    /\ Forall (fun p =>
                 exists w0 rest,
                   phrase_words p = w0 :: rest
                   /\ phrase_start p = word_start w0
                   /\ phrase_end p = Some (word_end (last rest w0))) ps.
Proof.
  intros ivs marker gap target.
  destruct (group_into_phrases_spec ivs marker gap target)
    as [ps [Hrun [Hok _]]].
  exists ps. split; [assumption|].
  eapply Forall_impl; [|exact Hok].
  intros [[s [e|]] [|w0 rest]]; simpl; try tauto.
  intros [Hs [He _]]. exists w0, rest. now subst.
Qed.

Lemma all_words_length (ps : list phrase) :
  Forall (fun p => phrase_words p <> []) ps ->
  (List.length ps <= List.length (all_words ps))%nat.
Proof.
  induction 1 as [|p ps Hp Hps IH]; [apply Nat.le_refl|].
  unfold all_words in *. cbn [map List.concat]. rewrite length_app.
  destruct (phrase_words p); [congruence | simpl; lia].
Qed.

Lemma phrase_ok_nonempty (target : float) (ps : list phrase) :
  Forall (phrase_ok target) ps -> Forall (fun p => phrase_words p <> []) ps.
Proof.
  apply Forall_impl.
  intros [[s [e|]] [|w0 rest]]; simpl; try tauto. discriminate.
Qed.

(** X2: [group_into_phrases] returns no phrase exactly when no interval is
    retained, and never more phrases than retained intervals. *)
Theorem X2_phrase_count :
  forall (ivs : list interval) (marker : string) (gap target : float),
  exists ps,
    group_into_phrases ivs marker gap target = Ok ps
    /\ (ps = [] <-> filter retained ivs = [])
    /\ (List.length ps <= List.length (filter retained ivs))%nat.
Proof.
  intros ivs marker gap target.
  destruct (group_into_phrases_spec ivs marker gap target)
    as [ps [Hrun [Hok Hwords]]].
  exists ps. split; [assumption|].
  rewrite filter_loop_spec in Hwords.
  pose proof (all_words_length ps (phrase_ok_nonempty _ _ Hok)) as Hlen.
  rewrite Hwords, !length_map in Hlen.
  split; [|exact Hlen]. split.
  - intros ->. cbn in Hwords. symmetry in Hwords.
    apply map_eq_nil in Hwords. now apply map_eq_nil in Hwords.
  - intros Hnil. rewrite Hnil in Hlen. simpl in Hlen.
    destruct ps; [reflexivity | simpl in Hlen; lia].
Qed.

Lemma app_snoc_cases {A : Type} (l : list A) (x : A) (pre : list A) (p : A)
    (post : list A) :
  (l ++ [x] = pre ++ p :: post)%list ->
  (post = [] /\ pre = l /\ p = x)
  \/ exists post0, post = (post0 ++ [x])%list /\ l = (pre ++ p :: post0)%list.
Proof.
  intros H. destruct post as [|y post0 _] using rev_ind.
  - left. apply app_inj_tail in H. destruct H as [-> ->]. auto.
  - right. exists post0.
    change (pre ++ p :: post0 ++ [y])%list
      with (pre ++ (p :: post0) ++ [y])%list in H.
    rewrite app_assoc in H. apply app_inj_tail in H.
    destruct H as [-> ->]. auto.
Qed.

Section GreedyFacts.

Variable marker : string.
Variable gap : float.
Variable target : float.

Lemma seg_greedy_init : seg_greedy gap target seg_init.
Proof.
  constructor; cbn.
  - intros pre p post lpe H. destruct pre; discriminate.
  - intros lpe cs w _ H. discriminate.
  - reflexivity.
Qed.

Lemma seg_greedy_close (processed : list word) (st : seg_state) (w : word)
    (lpe : float) :
  seg_inv marker target processed st ->
  seg_greedy gap target st ->
  last_phrase_end st = Some lpe ->
  marker_fires gap lpe st w || duration_fires target st w = true ->
  seg_greedy gap target (close_state marker st w).
Proof.
  intros Hinv [Hdone Hopen Hfresh] Hlpe Hfire.
  pose proof (inv_current _ _ _ _ Hinv) as Hcur.
  pose proof (inv_last_end _ _ _ _ Hinv) as Hlast_end.
  destruct (current_words st) as [|w0 ws] eqn:Ecw.
  { unfold marker_fires, duration_fires in Hfire. rewrite Ecw in Hfire.
    cbn [truthy] in Hfire. rewrite !andb_false_r in Hfire. discriminate. }
  destruct Hcur as [cs [Hcs _]].
  assert (Hso : start_of st w = cs) by (unfold start_of; now rewrite Hcs).
  constructor; cbn [close_state phrases current_words current_start
                      current_end last_phrase_end].
  - intros pre p post lpe' Hsplit Hlast.
    apply app_snoc_cases in Hsplit.
    destruct Hsplit as [[-> [-> ->]] | [post0 [-> Hps]]].
    + rewrite <- Hlast_end, Hlpe in Hlast. injection Hlast as <-.
      cbn [phrase_words phrase_start next_first hd_error].
      rewrite Hso, Ecw. split.
      * intros w' Hw'. now apply (Hopen lpe cs w' Hlpe Hcs).
      * intros w' Hw'. injection Hw' as <-. unfold fires.
        rewrite stored_word_has_marker, stored_word_start, stored_word_end.
        apply orb_true_iff in Hfire. destruct Hfire as [Hm|Hd].
        -- left. unfold marker_fires in Hm.
           apply andb_true_iff in Hm. destruct Hm as [Hm _].
           apply andb_true_iff in Hm. destruct Hm as [Hm Hg].
           split; assumption.
        -- right. unfold duration_fires in Hd.
           apply andb_true_iff in Hd. destruct Hd as [Hd _].
           now rewrite Hso in Hd.
    + destruct (Hdone pre p post0 lpe' Hps Hlast) as [Hst Hfi].
      split; [exact Hst|].
      intros w' Hn. apply Hfi.
      destruct post0 as [|q post0]; cbn [next_first app phrase_words] in *;
        rewrite ?Ecw in Hn; exact Hn.
  - intros lpe' cs' w' _ _ [].
  - discriminate.
Qed.

Lemma seg_greedy_append (processed : list word) (st : seg_state) (w : word)
    (lpe : float) :
  seg_inv marker target processed st ->
  seg_greedy gap target st ->
  last_phrase_end st = Some lpe ->
  marker_fires gap lpe st w || duration_fires target st w = false ->
  seg_greedy gap target (append_state marker st w).
Proof.
  intros Hinv [Hdone Hopen Hfresh] Hlpe Hno.
  pose proof (inv_current _ _ _ _ Hinv) as Hcur.
  apply orb_false_iff in Hno. destruct Hno as [Hm Hd].
  constructor; cbn [append_state phrases current_words current_start
                      current_end last_phrase_end].
  - intros pre p post lpe' Hsplit Hlast.
    destruct (Hdone pre p post lpe' Hsplit Hlast) as [Hst Hfi].
    split; [exact Hst|].
    intros w' Hn. apply Hfi.
    destruct post as [|q post]; cbn [next_first] in *; [|assumption].
    destruct (current_words st) as [|w0 ws] eqn:Ecw.
    + rewrite (Hfresh eq_refl) in Hsplit. destruct pre; discriminate.
    + exact Hn.
  - intros lpe' cs' w' Hl Hc Hw'. rewrite Hlpe in Hl.
    injection Hl as <-. injection Hc as <-.
    destruct (current_words st) as [|w0 ws] eqn:Ecw;
      cbn [app tl] in Hw'; [contradiction|].
    destruct Hcur as [cs [Hcs _]].
    assert (Hso : start_of st w = cs) by (unfold start_of; now rewrite Hcs).
    apply in_app_or in Hw'. destruct Hw' as [Hw'|[<-|[]]].
    + rewrite Hso. now apply (Hopen lpe cs w' Hlpe Hcs).
    + unfold stays.
      rewrite stored_word_has_marker, stored_word_start, stored_word_end.
      split.
      * intros Hmk. unfold marker_fires in Hm. rewrite Hmk, Ecw in Hm.
        cbn [truthy andb] in Hm. rewrite andb_true_r in Hm.
        exact Hm.
      * unfold duration_fires in Hd. rewrite Ecw in Hd.
        cbn [truthy] in Hd. rewrite andb_true_r in Hd.
        exact Hd.
  - intros H. destruct (current_words st); discriminate.
Qed.

Lemma seg_step_greedy (processed : list word) (st : seg_state) (w : word) :
  seg_inv marker target processed st ->
  seg_greedy gap target st ->
  exists st',
    seg_step marker gap target st w = Ok st'
    /\ seg_inv marker target (processed ++ [w]) st'
    /\ seg_greedy gap target st'.
Proof.
  intros Hinv Hgr.
  destruct (seg_step_inv marker gap target processed st w Hinv)
    as [st' [Hstep Hinv']].
  exists st'. split; [assumption|]. split; [assumption|].
  destruct (seg_inv_last_end_some _ _ _ _ Hinv) as [lpe Hlpe].
  rewrite (seg_step_eq marker gap target st w lpe Hlpe) in Hstep.
  injection Hstep as <-.
  destruct (marker_fires gap lpe st w || duration_fires target st w) eqn:E.
  - now apply (seg_greedy_close processed st w lpe).
  - now apply (seg_greedy_append processed st w lpe).
Qed.

Lemma seg_loop_greedy (ws processed : list word) (st : seg_state) :
  seg_inv marker target processed st ->
  seg_greedy gap target st ->
  exists st',
    seg_loop marker gap target st ws = Ok st'
    /\ seg_inv marker target (processed ++ ws) st'
    /\ seg_greedy gap target st'.
Proof.
  revert processed st. induction ws as [|w ws IH]; intros processed st Hinv Hgr.
  - exists st. rewrite app_nil_r. auto.
  - destruct (seg_step_greedy processed st w Hinv Hgr)
      as [st1 [Hstep [Hinv1 Hgr1]]].
    destruct (IH _ _ Hinv1 Hgr1) as [st' [Hloop [Hinv' Hgr']]].
    exists st'. cbn [seg_loop]. rewrite Hstep. cbn [bind].
    rewrite <- app_assoc in Hinv'. auto.
Qed.

End GreedyFacts.

(** X3: the phrase boundaries are exactly where the code's triggers hold,
    the differences and comparisons being the binary64 ones the code
    computes.  In the result of [group_into_phrases], with [lpe] the end of
    the phrase before [p] (0 for the first phrase): for every word of [p]
    after its first, [start - lpe >= min_phrase_gap] is false or the word
    has no marker, and [end - p.start > target_duration] is false; and for
    the first word of the phrase after [p], it has the marker and
    [start - lpe >= min_phrase_gap] is true, or
    [end - p.start > target_duration] is true. *)
Theorem X3_phrase_boundaries_are_triggers :
  forall (ivs : list interval) (marker : string) (gap target : float),
  exists ps,
    group_into_phrases ivs marker gap target = Ok ps
    /\ forall pre p post lpe,
         ps = (pre ++ p :: post)%list ->
         last_completed_end pre = Some lpe ->
         (forall w, In w (tl (phrase_words p)) ->
                    stays gap target lpe (phrase_start p) w)
         /\ (forall w, next_first post [] = Some w ->
                       fires gap target lpe (phrase_start p) w).
Proof.
  intros ivs marker gap target.
  destruct (seg_loop_greedy marker gap target (filter_loop marker ivs []) []
              seg_init (seg_inv_init marker target)
              (seg_greedy_init gap target))
    as [st [Hloop [Hinv [Hdone Hopen Hfresh]]]].
  exists (seg_finish st). split.
  { unfold group_into_phrases, segment_filtered. now rewrite Hloop. }
  pose proof (inv_current _ _ _ _ Hinv) as Hcur.
  pose proof (inv_last_end _ _ _ _ Hinv) as Hlast_end.
  unfold seg_finish.
  destruct (current_words st) as [|w0 ws] eqn:Ecw; cbn [truthy].
  - intros pre p post lpe Hsplit Hlast.
    now apply (Hdone pre p post lpe).
  - destruct Hcur as [cs [Hcs _]]. rewrite Hcs.
    intros pre p post lpe Hsplit Hlast.
    apply app_snoc_cases in Hsplit.
    destruct Hsplit as [[-> [-> ->]] | [post0 [-> Hps]]].
    + cbn [phrase_words phrase_start next_first hd_error]. split.
      * intros w Hw. rewrite <- Hlast_end in Hlast.
        now apply (Hopen lpe cs w Hlast Hcs).
      * discriminate.
    + destruct (Hdone pre p post0 lpe Hps Hlast) as [Hst Hfi].
      split; [exact Hst|].
      intros w Hn. apply Hfi.
      destruct post0 as [|q post0]; cbn [next_first app phrase_words] in *;
        exact Hn.
Qed.

Lemma seg_step_phrases_grow (marker : string) (gap target : float)
    (st st' : seg_state) (w : word) :
  seg_step marker gap target st w = Ok st' ->
  exists more, phrases st' = (phrases st ++ more)%list.
Proof.
  destruct w as [[[s e] t] m]. unfold seg_step.
  destruct (phrase_marker_condition gap st (s, e, t, m)) as [b|err];
    cbn [bind]; [|discriminate].
  destruct (b || duration_condition target _ st (s, e, t, m)).
  - destruct (truthy (current_words st)); intros H; injection H as <-;
      cbn [phrases].
    + eexists. reflexivity.
    + exists []. now rewrite app_nil_r.
  - intros H. injection H as <-. cbn [phrases].
    exists []. now rewrite app_nil_r.
Qed.

Lemma seg_loop_phrases_grow (marker : string) (gap target : float)
    (ws : list word) (st st' : seg_state) :
  seg_loop marker gap target st ws = Ok st' ->
  exists more, phrases st' = (phrases st ++ more)%list.
Proof.
  revert st. induction ws as [|w ws IH]; intros st; cbn [seg_loop].
  - intros H. injection H as <-. exists []. now rewrite app_nil_r.
  - destruct (seg_step marker gap target st w) as [st1|err] eqn:Hstep;
      cbn [bind]; [|discriminate].
    intros Hloop.
    destruct (seg_step_phrases_grow _ _ _ _ _ _ Hstep) as [m1 H1].
    destruct (IH _ Hloop) as [m2 H2].
    exists (m1 ++ m2)%list. now rewrite H2, H1, app_assoc.
Qed.

Lemma seg_loop_app (marker : string) (gap target : float) (a b : list word)
    (st : seg_state) :
  seg_loop marker gap target st (a ++ b)
  = (st' <- seg_loop marker gap target st a ;;
     seg_loop marker gap target st' b).
Proof.
  revert st. induction a as [|w a IH]; intros st; cbn [seg_loop app bind].
  - reflexivity.
  - destruct (seg_step marker gap target st w) as [st1|err]; cbn [bind].
    + apply IH.
    + reflexivity.
Qed.

Lemma filter_loop_app (marker : string) (a b : list interval) :
  filter_loop marker (a ++ b) []
  = (filter_loop marker a [] ++ filter_loop marker b [])%list.
Proof. now rewrite !filter_loop_spec, filter_app, map_app. Qed.

Lemma removelast_prefix {A : Type} (l : list A) :
  exists more, l = (removelast l ++ more)%list.
Proof.
  destruct l as [|x l] using rev_ind.
  - now exists [].
  - exists [x]. now rewrite removelast_last.
Qed.

Lemma seg_finish_grows (st : seg_state) :
  (exists more, seg_finish st = (phrases st ++ more)%list)
  /\ (exists more, phrases st = (removelast (seg_finish st) ++ more)%list).
Proof.
  unfold seg_finish.
  destruct (truthy (current_words st)); [destruct (current_start st)|].
  - split; [eexists; reflexivity|].
    exists []. now rewrite removelast_last, app_nil_r.
  - split; [exists []; now rewrite app_nil_r | apply removelast_prefix].
  - split; [exists []; now rewrite app_nil_r | apply removelast_prefix].
Qed.

(** X4: the segmenter never revises a completed phrase.  When more intervals
    are appended to the input, every phrase of the shorter run except its
    last one (the one still open at the end of the input) is returned
    unchanged, in the same position, by the longer run. *)
Theorem X4_completed_phrases_are_stable :
  forall (ivs1 ivs2 : list interval) (marker : string) (gap target : float),
  exists ps1 ps more,
    group_into_phrases ivs1 marker gap target = Ok ps1
    /\ group_into_phrases (ivs1 ++ ivs2) marker gap target = Ok ps
    /\ ps = (removelast ps1 ++ more)%list.
Proof.
  intros ivs1 ivs2 marker gap target.
  unfold group_into_phrases, segment_filtered.
  rewrite filter_loop_app, seg_loop_app.
  destruct (seg_loop_inv marker gap target (filter_loop marker ivs1 []) []
              seg_init (seg_inv_init marker target)) as [st1 [Hl1 Hinv1]].
  destruct (seg_loop_inv marker gap target (filter_loop marker ivs2 []) _
              st1 Hinv1) as [st2 [Hl2 _]].
  rewrite Hl1. cbn [bind]. rewrite Hl2. cbn [bind].
  destruct (seg_loop_phrases_grow _ _ _ _ _ _ Hl2) as [m1 H1].
  destruct (seg_finish_grows st2) as [[m2 H2] _].
  destruct (seg_finish_grows st1) as [_ [m0 H0]].
  exists (seg_finish st1), (seg_finish st2), (m0 ++ m1 ++ m2)%list.
  split; [reflexivity|]. split; [reflexivity|].
  rewrite H2, H1, H0 at 1. now rewrite <- !app_assoc.
Qed.

Lemma last_map {A B : Type} (f : A -> B) (l : list A) (d : A) :
  last (map f l) (f d) = f (last l d).
Proof.
  induction l as [|x l IH]; [reflexivity|].
  destruct l as [|y l]; [reflexivity|]. exact IH.
Qed.

Section SinglePhrase.

Variable marker : string.
Variable gap : float.
Variable target : float.

(** While no word fires a trigger, the loop only appends. *)
Lemma seg_loop_all_stay (rest : list word) (st : seg_state) (s0 : float) :
  truthy (current_words st) = true ->
  phrases st = [] ->
  last_phrase_end st = Some 0 ->
  current_start st = Some s0 ->
  (forall w, In w rest -> stays gap target 0 s0 w) ->
  exists st',
    seg_loop marker gap target st rest = Ok st'
    /\ phrases st' = []
    /\ current_words st'
       = (current_words st ++ map (stored_word marker) rest)%list
    /\ current_start st' = Some s0.
Proof.
  revert st. induction rest as [|w rest IH];
    intros st Hcw Hph Hlpe Hcs Hstay.
  - exists st. cbn [seg_loop map]. rewrite app_nil_r. auto.
  - cbn [seg_loop]. rewrite (seg_step_eq marker gap target st w 0 Hlpe).
    destruct (Hstay w (or_introl eq_refl)) as [Hm Hd].
    assert (Hso : start_of st w = s0) by (unfold start_of; now rewrite Hcs).
    assert (Hno : marker_fires gap 0 st w || duration_fires target st w = false).
    { apply orb_false_iff. split.
      - unfold marker_fires. destruct (word_has_marker w); [|reflexivity].
        cbn [andb]. rewrite (Hm eq_refl).
        reflexivity.
      - unfold duration_fires. rewrite Hso.
        now rewrite Hd. }
    rewrite Hno. cbn [bind].
    destruct (IH (append_state marker st w)) as [st' [Hl [Hp [Hw Hc]]]].
    + cbn [append_state current_words].
      destruct (current_words st); [discriminate | reflexivity].
    + exact Hph.
    + exact Hlpe.
    + cbn [append_state current_start]. now rewrite Hso.
    + intros w' Hw'. apply Hstay. now right.
    + exists st'. repeat split; try assumption.
      rewrite Hw. cbn [append_state current_words map].
      now rewrite <- app_assoc.
Qed.

End SinglePhrase.

(** X5: when, after the first retained word, no word fires a trigger as the
    code computes it in binary64 (for none with the marker is
    [start - 0 >= min_phrase_gap] true, and for none is
    [end - first_start > target_duration] true), the result is one phrase
    holding all the retained words. *)
Theorem X5_single_phrase_when_nothing_fires :
  forall (ivs : list interval) (marker : string) (gap target : float)
         (w0 : word) (rest : list word),
  filter_loop marker ivs [] = w0 :: rest ->
  (forall w, In w rest -> stays gap target 0 (word_start w0) w) ->
  group_into_phrases ivs marker gap target
  = Ok [(word_start w0, Some (word_end (last rest w0)),
         map (stored_word marker) (w0 :: rest))].
Proof.
  intros ivs marker gap target w0 rest Hfil Hstay.
  unfold group_into_phrases, segment_filtered. rewrite Hfil.
  pose proof (seg_loop_reaches_inv marker gap target (w0 :: rest)) as Hreach.
  cbn [seg_loop] in *.
  rewrite (seg_step_eq marker gap target seg_init w0 0 eq_refl) in *.
  change (marker_fires gap 0 seg_init w0 || duration_fires target seg_init w0)
    with (word_has_marker w0 && geb (word_start w0 - 0) gap && false
          || gtb (word_end w0 - word_start w0) target && false) in *.
  rewrite !andb_false_r in *. cbn [orb bind] in *.
  destruct (seg_loop_all_stay marker gap target rest
              (append_state marker seg_init w0) (word_start w0))
    as [st' [Hl [Hp [Hw Hc]]]]; try reflexivity; try assumption.
  rewrite Hl in *. cbn [bind].
  specialize (Hreach st' eq_refl).
  pose proof (inv_current _ _ _ _ Hreach) as Hcur.
  unfold seg_finish. rewrite Hp, Hc, Hw in *.
  cbn [append_state current_words seg_init app truthy] in *.
  destruct Hcur as [cs [Hcs Hok]].
  destruct (current_end st') as [e|]; [|contradiction].
  destruct Hok as [_ [He _]].
  rewrite He, last_map, stored_word_end. reflexivity.
Qed.

Lemma X5_single_phrase_when_nothing_fires_witness :
  group_into_phrases [(0, 1, "hello"); (1, 2, "<eps>world")] "<eps>" 2 5
  = Ok [(0, Some 2, [(0, 1, "hello", false); (1, 2, "world", true)])].
Proof.
  apply (X5_single_phrase_when_nothing_fires
           [(0, 1, "hello"); (1, 2, "<eps>world")] "<eps>" 2 5
           (0, 1, "hello", false) [(1, 2, "<eps>world", true)]).
  - reflexivity.
  - intros w [<-|[]]. split; [intros _|]; reflexivity.
Defined.

(* ------------------------------------------------------------------ *)
(** ** Further properties of the stored text *)

Lemma lstrip_length (s : string) : (length (lstrip s) <= length s)%nat.
Proof.
  induction s as [|c r IH]; cbn [lstrip length]; [lia|].
  destruct (py_isspace c); cbn [length]; lia.
Qed.

Lemma lstrip_idem (s : string) : lstrip (lstrip s) = lstrip s.
Proof.
  induction s as [|c r IH]; [reflexivity|]. cbn [lstrip].
  destruct (py_isspace c) eqn:E; [exact IH|]. cbn [lstrip]. now rewrite E.
Qed.

Lemma lstrip_rstrip_fixed (s : string) :
  lstrip s = s -> lstrip (rstrip s) = rstrip s.
Proof.
  destruct s as [|c r]; [reflexivity|]. cbn [lstrip rstrip].
  destruct (py_isspace c) eqn:E.
  - intros H. pose proof (lstrip_length r) as Hlen. rewrite H in Hlen.
    cbn [length] in Hlen. lia.
  - intros _. cbn [andb lstrip]. now rewrite E.
Qed.

Lemma rstrip_idem (s : string) : rstrip (rstrip s) = rstrip s.
Proof.
  induction s as [|c r IH]; [reflexivity|]. cbn [rstrip].
  destruct (py_isspace c && is_empty (rstrip r)) eqn:E; [reflexivity|].
  cbn [rstrip]. rewrite IH, E. reflexivity.
Qed.

(** Trimming a trimmed string changes nothing. *)
Lemma strip_idem (s : string) : strip (strip s) = strip s.
Proof.
  unfold strip.
  rewrite (lstrip_rstrip_fixed (lstrip s) (lstrip_idem s)).
  apply rstrip_idem.
Qed.

Lemma replace_scan_absent (old new s : string) :
  contains old s = false -> replace_scan old new 0 s = s.
Proof.
  induction s as [|c r IH]; [reflexivity|].
  cbn [contains replace_scan]. intros H.
  apply orb_false_iff in H. destruct H as [Hp Hr].
  rewrite Hp, (IH Hr). reflexivity.
Qed.

(** Replacing a string that does not occur changes nothing. *)
Lemma replace_absent (old new s : string) :
  contains old s = false -> replace old new s = s.
Proof.
  intros H. unfold replace. destruct old as [|c old].
  - destruct s; discriminate.
  - cbn [is_empty]. now apply replace_scan_absent.
Qed.

(** X6: every word of every returned phrase comes from a retained interval,
    with the interval's start and end, and its text is trimmed (trimming it
    again changes nothing).  A word stored without the marker flag carries
    the trimmed text of its interval, which is not empty: an empty stored
    text only occurs on a word that had the marker. *)
Theorem X6_stored_text_is_trimmed :
  forall (ivs : list interval) (marker : string) (gap target : float),
  exists ps,
    group_into_phrases ivs marker gap target = Ok ps
    /\ forall w, In w (all_words ps) ->
         strip (word_text w) = word_text w
         /\ (word_has_marker w = false -> word_text w <> "")
         /\ exists s e t,
              In (s, e, t) ivs
              /\ retained (s, e, t) = true
              /\ w = (s, e, clean_text marker t, contains marker t)
              /\ (contains marker t = false -> clean_text marker t = strip t).
Proof.
  intros ivs marker gap target.
  destruct (group_into_phrases_spec ivs marker gap target)
    as [ps [Hrun [_ Hwords]]].
  exists ps. split; [assumption|].
  intros w Hw. rewrite Hwords, filter_loop_spec, map_map in Hw.
  apply in_map_iff in Hw. destruct Hw as [[[s e] t] [<- Hiv]].
  apply filter_In in Hiv. destruct Hiv as [Hin Hret].
  cbn [annotate stored_word word_text word_has_marker].
  assert (Habs : contains marker t = false -> clean_text marker t = strip t).
  { intros H. unfold clean_text. now rewrite replace_absent. }
  split; [apply strip_idem|]. split.
  - intros Hm. rewrite (Habs Hm). intros Hempty.
    unfold retained, skip_interval in Hret. cbn [interval_text] in Hret.
    rewrite Hempty in Hret. discriminate.
  - exists s, e, t. auto.
Qed.

(* ------------------------------------------------------------------ *)
(** ** Further properties of the encoder *)

Lemma markup_from_index (dur : float -> result Z) (ws : list word)
    (i j : nat) :
  (0 < i)%nat -> (0 < j)%nat -> markup_from dur i ws = markup_from dur j ws.
Proof.
  revert i j. induction ws as [|[[[s e] t] m] ws IH]; intros i j Hi Hj.
  - reflexivity.
  - cbn [markup_from word_markup].
    rewrite (IH (S i) (S j)) by lia.
    destruct i; [lia|]. destruct j; [lia|]. reflexivity.
Qed.

(** X7: the line of a phrase cut in two is the line of the first part
    followed by the line of the second part, with one more space between
    them exactly when the first part is not empty and the second part
    begins with a word that has the marker; it raises when the line of the
    first part does, else when the line of the second part does.  In
    particular a line never begins with that extra space. *)
Theorem X7_karaoke_line_of_concatenation :
  forall (pre : list word) (w : word) (post : list word),
  create_karaoke_line (pre ++ w :: post)
  = (a <- create_karaoke_line pre ;;
     b <- create_karaoke_line (w :: post) ;;
     Ok (a ++ (if truthy pre && word_has_marker w then " " else "") ++ b)).
Proof.
  intros pre w post. rewrite !create_karaoke_line_markup, markup_from_app.
  destruct pre as [|w1 pre].
  - cbn [markup_from bind List.length Nat.add truthy andb].
    destruct (markup_from py_int 0 (w :: post)); reflexivity.
  - destruct (markup_from py_int 0 (w1 :: pre)) as [a|err]; cbn [bind];
      [|reflexivity].
    cbn [truthy andb List.length Nat.add].
    destruct w as [[[s e] t] m]. cbn [markup_from word_markup word_has_marker].
    rewrite (markup_from_index py_int post (S (S (List.length pre))) 1)
      by lia.
    destruct (py_int ((e - s) * 100)) as [n|err]; cbn [bind]; [|reflexivity].
    destruct (markup_from py_int 1 post) as [b|err]; cbn [bind];
      [|reflexivity].
    cbn [Nat.ltb Nat.leb andb]. destruct m; reflexivity.
Qed.

(* ------------------------------------------------------------------ *)
(** ** Further properties of the file writer and of [main] *)

(** With a shift, the event of a well-formed phrase is a [Dialogue] line or
    an exception of [int()]. *)
Lemma dialogue_event_with_shift (style_name : string) (shift target : float)
    (p : phrase) :
  phrase_ok target p ->
  (exists ev,
     dialogue_event style_name (Some shift) p = Ok ev
     /\ prefix "Dialogue: 0," ev = true)
  \/ (exists e,
        dialogue_event style_name (Some shift) p = Raise e /\ int_error e).
Proof.
  destruct p as [[s [e|]] [|w0 rest]]; simpl; try tauto. intros _.
  destruct (format_time (py_max0 (s + shift))) as [st|err] eqn:Est;
    cbn [bind]; [|right; eexists; split;
                  [reflexivity | exact (format_time_error _ _ Est)]].
  destruct (format_time e) as [et|err] eqn:Eet;
    cbn [bind]; [|right; eexists; split;
                  [reflexivity | exact (format_time_error _ _ Eet)]].
  fold (create_karaoke_line (w0 :: rest)).
  rewrite create_karaoke_line_markup.
  destruct (markup_from py_int 0 (w0 :: rest)) as [line|err] eqn:El;
    cbn [bind]; [|right; eexists; split;
                  [reflexivity | exact (markup_from_error _ _ _ El)]].
  destruct (py_int (shift * -100)) as [n|err] eqn:En;
    cbn [bind]; [|right; eexists; split;
                  [reflexivity | exact (py_int_error _ _ En)]].
  left. eexists. split; [reflexivity|].
  apply prefix_iff. eexists. reflexivity.
Qed.

Lemma events_loop_with_shift (style_name : string) (shift target : float)
    (ps : list phrase) (acc : list string) :
  Forall (phrase_ok target) ps ->
  (exists evs,
     events_loop style_name (Some shift) ps acc = Ok (acc ++ evs)%list
     /\ Forall2 (fun p ev => dialogue_event style_name (Some shift) p = Ok ev)
          ps evs
     /\ Forall (fun ev => prefix "Dialogue: 0," ev = true) evs)
  \/ (exists p e,
        In p ps
        /\ dialogue_event style_name (Some shift) p = Raise e
        /\ int_error e
        /\ events_loop style_name (Some shift) ps acc = Raise e).
Proof.
  intros Hok. revert acc. induction Hok as [|p ps Hp Hps IH]; intros acc.
  - left. exists []. cbn [events_loop]. rewrite app_nil_r. auto.
  - cbn [events_loop].
    destruct (dialogue_event_with_shift style_name shift target p Hp)
      as [[ev [Hev Hpre]] | [e [Hev He]]].
    + rewrite Hev. cbn [bind].
      destruct (IH (acc ++ [ev])%list)
        as [[evs [Hloop [Hall Hpres]]] | [q [e [Hq [Hqe [He Hloop]]]]]].
      * left. exists (ev :: evs). rewrite Hloop, <- app_assoc. auto.
      * right. exists q, e. repeat split; auto. now right.
    + right. exists p, e. rewrite Hev. cbn [bind].
      repeat split; auto. now left.
Qed.

(** X8: with a numeric [shift_time], [create_ass_file] either writes the
    header followed, with a newline between them and none at the end, by one
    [Dialogue: 0,] line per phrase, in phrase order, or raises the
    [ValueError] or [OverflowError] that [int()] raised on a non-finite
    number while the line of one of the phrases was built; it never raises
    [TypeError]. *)
Theorem X8_one_dialogue_line_per_phrase :
  forall (ivs : list interval) (style_name marker : string)
         (gap target shift : float),
  exists ps,
    group_into_phrases ivs marker gap target = Ok ps
    /\ ((exists evs,
           create_ass_file ivs style_name marker gap target (Some shift)
           = Ok (header style_name ++ join nl evs)
           /\ Forall2
                (fun p ev => dialogue_event style_name (Some shift) p = Ok ev)
                ps evs
           /\ List.length evs = List.length ps
           /\ Forall (fun ev => prefix "Dialogue: 0," ev = true) evs)
        \/ (exists p e,
              In p ps
              /\ dialogue_event style_name (Some shift) p = Raise e
              /\ int_error e
              /\ create_ass_file ivs style_name marker gap target (Some shift)
                 = Raise e)).
Proof.
  intros ivs style_name marker gap target shift.
  destruct (group_into_phrases_spec ivs marker gap target)
    as [ps [Hrun [Hok _]]].
  exists ps. split; [assumption|].
  unfold create_ass_file. rewrite Hrun. cbn [bind].
  destruct (events_loop_with_shift style_name shift target ps [] Hok)
    as [[evs [Hloop [Hall Hpre]]] | [p [e [Hp [Hpe [He Hloop]]]]]].
  - left. exists evs. rewrite Hloop. cbn [bind app].
    repeat split; try assumption.
    symmetry. eapply Forall2_length. exact Hall.
  - right. exists p, e. rewrite Hloop. cbn [bind]. auto.
Qed.





Example main_not_finite_shift :
  main (with_shift_time (bare_cli "in.TextGrid" "out.ass") nan)
       [("words", [(0, 1, "hello")])] = Crashed ValueError
  /\ main (with_shift_time (bare_cli "in.TextGrid" "out.ass") 1e307)
          [("words", [(0, 1, "hello")])] = Crashed OverflowError.
Proof. split; vm_compute; reflexivity. Qed.

Lemma lookup_tier_none_iff (name : string) (tiers : tiers_dict) :
  lookup_tier name tiers = None <-> ~ In name (map fst tiers).
Proof.
  induction tiers as [|[k v] tiers IH]; cbn [lookup_tier map fst In].
  - tauto.
  - destruct (String.eqb name k) eqn:E.
    + apply String.eqb_eq in E. subst k. split; [discriminate | tauto].
    + apply String.eqb_neq in E. rewrite IH. split.
      * intros H [Hk|Hin]; [congruence | tauto].
      * tauto.
Qed.

(** X10: [main] reports a missing tier, and writes nothing, exactly when
    the requested tier name (["words"] when [--tier] is not given) is not a
    key of the parsed dictionary. *)
Theorem X10_main_reports_missing_tier :
  forall (c : cli) (tiers : tiers_dict),
  ((exists message, main c tiers = TierNotFound message)
   <-> ~ In (with_default "words" (cli_tier c)) (map fst tiers)).
Proof.
  intros c tiers. rewrite <- lookup_tier_none_iff. unfold main.
  cbn [parse_args tier].
  destruct (lookup_tier (with_default "words" (cli_tier c)) tiers) as [ivs|].
  - split; [|discriminate]. intros [message H].
    destruct (create_ass_file _ _ _ _ _ _) in H; discriminate.
  - split; [reflexivity|]. intros _. eexists. reflexivity.
Qed.

(* ------------------------------------------------------------------ *)
(** ** The dictionary built by [parse_textgrid] *)

Lemma lookup_dict_set_same (k : string) (v : list interval) (d : tiers_dict) :
  lookup_tier k (dict_set k v d) = Some v.
Proof.
  induction d as [|[k' v'] d IH]; cbn [dict_set lookup_tier].
  - now rewrite String.eqb_refl.
  - destruct (String.eqb k k') eqn:E; cbn [lookup_tier]; rewrite E; auto.
Qed.

Lemma lookup_dict_set_other (k k' : string) (v : list interval)
    (d : tiers_dict) :
  k <> k' -> lookup_tier k' (dict_set k v d) = lookup_tier k' d.
Proof.
  intros Hne. induction d as [|[k0 v0] d IH]; cbn [dict_set lookup_tier].
  - destruct (String.eqb k' k) eqn:E; [|reflexivity].
    apply String.eqb_eq in E. congruence.
  - destruct (String.eqb k k0) eqn:E; cbn [lookup_tier].
    + apply String.eqb_eq in E. subst k0.
      destruct (String.eqb k' k) eqn:E'; [|reflexivity].
      apply String.eqb_eq in E'. congruence.
    + now rewrite IH.
Qed.

Lemma dict_set_keys (k : string) (v : list interval) (d : tiers_dict) :
  map fst (dict_set k v d)
  = if in_dec string_dec k (map fst d) then map fst d
    else (map fst d ++ [k])%list.
Proof.
  induction d as [|[k' v'] d IH]; cbn [dict_set map fst].
  - reflexivity.
  - destruct (String.eqb k k') eqn:E.
    + apply String.eqb_eq in E. subst k'. cbn [map fst].
      destruct (in_dec string_dec k (k :: map fst d)) as [_|Hn];
        [reflexivity | exfalso; apply Hn; now left].
    + apply String.eqb_neq in E. cbn [map fst]. rewrite IH.
      destruct (in_dec string_dec k (map fst d)) as [Hin|Hn];
        destruct (in_dec string_dec k (k' :: map fst d)) as [Hin'|Hn'];
        try reflexivity.
      * exfalso. apply Hn'. now right.
      * exfalso. destruct Hin' as [Heq|Hin']; [congruence | tauto].
Qed.

Lemma dict_set_keys_in (k k0 : string) (v : list interval) (d : tiers_dict) :
  In k0 (map fst (dict_set k v d)) <-> k0 = k \/ In k0 (map fst d).
Proof.
  rewrite dict_set_keys.
  destruct (in_dec string_dec k (map fst d)) as [Hin|Hn].
  - split; [tauto | intros [->|H]; assumption].
  - rewrite in_app_iff. cbn [In]. split; intros H; intuition congruence.
Qed.

Lemma dict_set_keys_nodup (k : string) (v : list interval) (d : tiers_dict) :
  NoDup (map fst d) -> NoDup (map fst (dict_set k v d)).
Proof.
  intros H. rewrite dict_set_keys.
  destruct (in_dec string_dec k (map fst d)) as [Hin|Hn]; [assumption|].
  apply NoDup_app; [assumption | repeat constructor; intros [] | ].
  intros x Hx [<-|[]]. contradiction.
Qed.

Lemma empty_tiers_from (names : list string) (d : tiers_dict) :
  NoDup (map fst d) ->
  Forall (fun kv => snd kv = []) d ->
  let d' := fold_left (fun d name => dict_set name [] d) names d in
  NoDup (map fst d')
  /\ (forall k, In k (map fst d') <-> In k names \/ In k (map fst d))
  /\ Forall (fun kv => snd kv = []) d'.
Proof.
  revert d. induction names as [|n names IH]; intros d Hnd Hall; cbn.
  - repeat split; auto. tauto.
  - destruct (IH (dict_set n [] d)) as [H1 [H2 H3]].
    + now apply dict_set_keys_nodup.
    + clear IH. induction d as [|[k v] d IHd]; cbn [dict_set].
      * repeat constructor.
      * inversion Hall as [|? ? Hv Hd]; subst. cbn in Hv. subst v.
        destruct (String.eqb n k); constructor; auto.
        apply IHd; [now inversion Hnd | assumption].
    + repeat split; auto.
      * intros H. apply H2 in H. rewrite dict_set_keys_in in H.
        destruct H as [H|[->|H]]; auto.
      * intros H. apply H2. rewrite dict_set_keys_in.
        destruct H as [[<-|H]|H]; auto.
Qed.

Lemma fill_tiers_keys (names : list string) (blocks : list (list interval))
    (d : tiers_dict) :
  (forall k, In k names -> In k (map fst d)) ->
  map fst (fill_tiers names blocks d) = map fst d.
Proof.
  revert blocks d. induction names as [|n names IH]; intros blocks d Hsub.
  - destruct blocks; reflexivity.
  - destruct blocks as [|b blocks]; [reflexivity|]. cbn [fill_tiers].
    assert (Hk : map fst (dict_set n (strip_intervals b) d) = map fst d).
    { rewrite dict_set_keys.
      destruct (in_dec string_dec n (map fst d)) as [_|Hn]; [reflexivity|].
      exfalso. apply Hn, Hsub. now left. }
    rewrite IH, Hk; [reflexivity|].
    intros k Hin. rewrite Hk. apply Hsub. now right.
Qed.

(** X13: the dictionary built by [parse_textgrid] has exactly the tier names
    found in the file as keys, each once, whatever the number of item
    blocks; so [main] finds every tier name of the file and reports a
    missing tier for every other name. *)
Theorem X13_parsed_tier_names :
  forall (names : list string) (blocks : list (list interval)),
  NoDup (map fst (collect_tiers names blocks))
  /\ (forall k, In k (map fst (collect_tiers names blocks)) <-> In k names)
  /\ (forall k, lookup_tier k (collect_tiers names blocks) = None
                <-> ~ In k names).
Proof.
  intros names blocks. unfold collect_tiers.
  destruct (empty_tiers_from names [] (NoDup_nil _) (Forall_nil _))
    as [Hnd [Hkeys _]].
  fold (empty_tiers names) in Hnd, Hkeys.
  assert (Hk : forall k, In k (map fst (empty_tiers names)) <-> In k names).
  { intros k. rewrite Hkeys. cbn. tauto. }
  rewrite fill_tiers_keys by (intros k; apply Hk).
  split; [assumption|]. split; [assumption|].
  intros k. rewrite lookup_tier_none_iff, fill_tiers_keys
    by (intros k'; apply Hk).
  now rewrite Hk.
Qed.

Lemma lookup_tier_in (k : string) (v : list interval) (d : tiers_dict) :
  lookup_tier k d = Some v -> In (k, v) d.
Proof.
  induction d as [|[k' v'] d IH]; cbn [lookup_tier]; [discriminate|].
  destruct (String.eqb k k') eqn:E.
  - apply String.eqb_eq in E. subst k'. intros H. injection H as ->. now left.
  - intros H. right. now apply IH.
Qed.

Lemma dict_set_forall (P : string * list interval -> Prop) (k : string)
    (v : list interval) (d : tiers_dict) :
  (forall k', P (k', v)) -> Forall P d -> Forall P (dict_set k v d).
Proof.
  intros Hv. induction 1 as [|[k' v'] d Hp Hd IH]; cbn [dict_set].
  - repeat constructor. apply Hv.
  - destruct (String.eqb k k'); constructor; auto.
Qed.

Lemma fill_tiers_forall (P : string * list interval -> Prop)
    (names : list string) (blocks : list (list interval)) (d : tiers_dict) :
  (forall k b, In b blocks -> P (k, strip_intervals b)) ->
  Forall P d -> Forall P (fill_tiers names blocks d).
Proof.
  revert blocks d. induction names as [|n names IH]; intros blocks d Hb Hd.
  - destruct blocks; assumption.
  - destruct blocks as [|b blocks]; [assumption|]. cbn [fill_tiers].
    apply IH.
    + intros k b' Hin. apply Hb. now right.
    + apply dict_set_forall; [|assumption].
      intros k'. apply Hb. now left.
Qed.

(** X14: every interval list stored in the parsed dictionary is empty or is
    one of the item blocks with its texts trimmed.  Hence every text that
    reaches the segmenter through [parse_textgrid] is already trimmed, and
    on such a text the segmenter's filter discards exactly the texts that
    are empty or equal to the silence token after trimming. *)
Theorem X14_parsed_texts_are_trimmed :
  forall (names : list string) (blocks : list (list interval))
         (k : string) (ivs : list interval),
  lookup_tier k (collect_tiers names blocks) = Some ivs ->
  (ivs = [] \/ exists b, In b blocks /\ ivs = strip_intervals b)
  /\ forall iv, In iv ivs ->
       strip (interval_text iv) = interval_text iv
       /\ skip_interval (interval_text iv) = spec_discards (interval_text iv).
Proof.
  intros names blocks k ivs Hlook.
  assert (Hshape : ivs = [] \/ exists b, In b blocks /\ ivs = strip_intervals b).
  { apply lookup_tier_in in Hlook.
    assert (Hall : Forall (fun kv : string * list interval =>
                             snd kv = []
                             \/ exists b, In b blocks
                                          /\ snd kv = strip_intervals b)
                     (collect_tiers names blocks)).
    { unfold collect_tiers. apply fill_tiers_forall.
      - intros k' b Hb. right. now exists b.
      - destruct (empty_tiers_from names [] (NoDup_nil _) (Forall_nil _))
          as [_ [_ Hempty]].
        eapply Forall_impl; [|exact Hempty]. intros kv H. now left. }
    rewrite Forall_forall in Hall. exact (Hall _ Hlook). }
  split; [exact Hshape|].
  intros iv Hiv.
  assert (Htrim : strip (interval_text iv) = interval_text iv).
  { destruct Hshape as [->|[b [_ ->]]]; [contradiction|].
    unfold strip_intervals in Hiv. apply in_map_iff in Hiv.
    destruct Hiv as [[[s e] t] [<- _]]. cbn [interval_text].
    apply strip_idem. }
  split; [exact Htrim|].
  unfold skip_interval, spec_discards. now rewrite Htrim.
Qed.

Lemma X14_parsed_texts_are_trimmed_witness :
  strip (interval_text (0, 1, "<p:>")) = interval_text (0, 1, "<p:>")
  /\ skip_interval (interval_text (0, 1, "<p:>"))
     = spec_discards (interval_text (0, 1, "<p:>")).
Proof.
  destruct (X14_parsed_texts_are_trimmed ["words"]
              [[(0, 1, " <p:> "); (1, 2, "hello ")]] "words"
              [(0, 1, "<p:>"); (1, 2, "hello")]) as [_ Htexts].
  - reflexivity.
  - apply (Htexts (0, 1, "<p:>")). now left.
Defined.

Lemma fill_tiers_other (names : list string) (blocks : list (list interval))
    (d : tiers_dict) (k : string) :
  ~ In k names ->
  lookup_tier k (fill_tiers names blocks d) = lookup_tier k d.
Proof.
  revert blocks d. induction names as [|n names IH]; intros blocks d Hn.
  - destruct blocks; reflexivity.
  - destruct blocks as [|b blocks]; [reflexivity|]. cbn [fill_tiers].
    rewrite IH by (intros H; apply Hn; now right).
    apply lookup_dict_set_other. intros ->. apply Hn. now left.
Qed.

Lemma fill_tiers_lookup (names : list string) (blocks : list (list interval))
    (d : tiers_dict) (i : nat) (k : string) :
  NoDup names ->
  nth_error names i = Some k ->
  lookup_tier k (fill_tiers names blocks d)
  = match nth_error blocks i with
    | Some b => Some (strip_intervals b)
    | None => lookup_tier k d
    end.
Proof.
  revert blocks d i.
  induction names as [|n names IH]; intros blocks d i Hnd Hi.
  - destruct i; discriminate.
  - inversion Hnd as [|? ? Hnotin Hnd']; subst.
    destruct blocks as [|b blocks].
    + cbn [fill_tiers]. now destruct i.
    + cbn [fill_tiers]. destruct i as [|i]; cbn [nth_error] in *.
      * injection Hi as ->. rewrite fill_tiers_other by assumption.
        apply lookup_dict_set_same.
      * rewrite (IH blocks _ i Hnd' Hi).
        destruct (nth_error blocks i); [reflexivity|].
        apply lookup_dict_set_other. intros ->.
        apply Hnotin. eapply nth_error_In. exact Hi.
Qed.

(** X15: when the tier names of the file are distinct, looking up the
    [i]-th name in the parsed dictionary gives the [i]-th item block with
    its texts trimmed, and the empty list when the file has fewer item
    blocks than names. *)
Theorem X15_parsed_tier_lookup :
  forall (names : list string) (blocks : list (list interval))
         (i : nat) (k : string),
  NoDup names ->
  nth_error names i = Some k ->
  lookup_tier k (collect_tiers names blocks)
  = Some (match nth_error blocks i with
          | Some b => strip_intervals b
          | None => []
          end).
Proof.
  intros names blocks i k Hnd Hi. unfold collect_tiers.
  rewrite (fill_tiers_lookup names blocks _ i k Hnd Hi).
  destruct (nth_error blocks i); [reflexivity|].
  destruct (empty_tiers_from names [] (NoDup_nil _) (Forall_nil _))
    as [_ [Hkeys Hempty]].
  fold (empty_tiers names) in Hkeys, Hempty.
  destruct (lookup_tier k (empty_tiers names)) as [v|] eqn:E.
  - apply lookup_tier_in in E. rewrite Forall_forall in Hempty.
    specialize (Hempty _ E). cbn in Hempty. now subst v.
  - exfalso. apply lookup_tier_none_iff in E. apply E, Hkeys. left.
    eapply nth_error_In. exact Hi.
Qed.

Lemma X15_parsed_tier_lookup_witness :
  lookup_tier "words"
    (collect_tiers ["phones"; "words"]
       [[(0, 1, "h")]; [(0, 1, " hello "); (1, 2, "")]])
  = Some [(0, 1, "hello"); (1, 2, "")].
Proof.
  apply (X15_parsed_tier_lookup ["phones"; "words"]
           [[(0, 1, "h")]; [(0, 1, " hello "); (1, 2, "")]] 1 "words").
  - repeat constructor; cbn; intuition discriminate.
  - reflexivity.
Defined.

(* ------------------------------------------------------------------ *)
(** ** Time order of the phrases *)

Lemma FOP_app_inv {A : Type} (R : A -> A -> Prop) (l m : list A) :
  ForallOrdPairs R (l ++ m) ->
  ForallOrdPairs R m /\ forall a b, In a l -> In b m -> R a b.
Proof.
  induction l as [|x l IH]; cbn [app]; intros H.
  - split; [assumption | intros a b []].
  - inversion H as [|? ? Hx Hrest]; subst.
    destruct (IH Hrest) as [Hm Hcross]. split; [assumption|].
    intros a b [<-|Ha] Hb.
    + rewrite Forall_forall in Hx. apply Hx, in_or_app. now right.
    + now apply Hcross.
Qed.

Lemma FOP_filter {A : Type} (R : A -> A -> Prop) (f : A -> bool)
    (l : list A) :
  ForallOrdPairs R l -> ForallOrdPairs R (filter f l).
Proof.
  induction 1 as [|x l Hx Hl IH]; cbn [filter]; [constructor|].
  destruct (f x); [|assumption]. constructor; [|assumption].
  rewrite Forall_forall in *. intros y Hy. apply Hx.
  apply filter_In in Hy. tauto.
Qed.

Lemma FOP_map {A B : Type} (R : A -> A -> Prop) (S : B -> B -> Prop)
    (f : A -> B) (l : list A) :
  (forall a b, R a b -> S (f a) (f b)) ->
  ForallOrdPairs R l -> ForallOrdPairs S (map f l).
Proof.
  intros Hf. induction 1 as [|x l Hx Hl IH]; cbn [map]; constructor;
    [|assumption].
  rewrite Forall_forall in *. intros y Hy.
  apply in_map_iff in Hy. destruct Hy as [a [<- Ha]]. auto.
Qed.

Lemma last_in_nonempty {A : Type} (l : list A) (d : A) :
  l <> [] -> In (last l d) l.
Proof.
  induction l as [|x l IH]; intros Hne; [congruence|].
  destruct l as [|y l]; [now left|].
  right. apply IH. discriminate.
Qed.

Lemma last_in {A : Type} (l : list A) (d : A) : In (last l d) (d :: l).
Proof.
  destruct l as [|x l]; [now left|].
  right. apply last_in_nonempty. discriminate.
Qed.

Lemma phrases_in_time_order (target : float) (ps : list phrase) :
  Forall (phrase_ok target) ps ->
  ForallOrdPairs word_before (all_words ps) ->
  ForallOrdPairs phrase_before ps.
Proof.
  induction 1 as [|p ps Hp Hps IH]; intros Hord; [constructor|].
  unfold all_words in Hord. cbn [map List.concat] in Hord.
  apply FOP_app_inv in Hord. destruct Hord as [Hrest Hcross].
  constructor; [|now apply IH].
  rewrite Forall_forall. intros q Hq.
  rewrite Forall_forall in Hps. specialize (Hps q Hq).
  destruct p as [[s [e|]] [|w0 rest]]; simpl in Hp; try tauto.
  destruct q as [[s' [e'|]] [|w0' rest']]; simpl in Hps; try tauto.
  destruct Hp as [_ [He _]]. destruct Hps as [Hs' _].
  exists e. split; [reflexivity|]. cbn [phrase_start]. subst e s'.
  apply Hcross.
  - cbn [phrase_words]. apply last_in.
  - apply in_concat. exists (w0' :: rest'). split; [|now left].
    apply in_map_iff. exists (word_start w0', Some e', w0' :: rest').
    split; [reflexivity | assumption].
Qed.

(** X16: when the input intervals are in time order without overlap (each
    ends no later than every later one starts), so are the returned
    phrases: each phrase ends no later than every later phrase starts. *)
Theorem X16_phrases_do_not_overlap :
  forall (ivs : list interval) (marker : string) (gap target : float),
  ForallOrdPairs ends_before ivs ->
  exists ps,
    group_into_phrases ivs marker gap target = Ok ps
    /\ ForallOrdPairs phrase_before ps.
Proof.
  intros ivs marker gap target Hord.
  destruct (group_into_phrases_spec ivs marker gap target)
    as [ps [Hrun [Hok Hwords]]].
  exists ps. split; [assumption|].
  apply (phrases_in_time_order target ps Hok).
  rewrite Hwords, filter_loop_spec, map_map.
  apply (FOP_map ends_before); [|now apply FOP_filter].
  intros [[s e] t] [[s' e'] t'] H. exact H.
Qed.

Lemma X16_phrases_do_not_overlap_witness :
  exists ps,
    group_into_phrases [(0, 3, "a"); (3, 6, "b")] "<eps>" 2 5 = Ok ps
    /\ ForallOrdPairs phrase_before ps.
Proof.
  apply X16_phrases_do_not_overlap.
  repeat constructor.
Defined.
